(** * PlatformAccessory: the accessory model of hoobs-core and its
    conversion to and from a flat dictionary.

    The development embeds [PlatformAccessory] (constructor, service
    registry, reachability, [_dictionaryPresentation], [_configFromData])
    as functions over an explicit object store: services are JavaScript
    objects, compared by reference and mutated in place, so a service is
    an address and the store says what each address currently holds.
    The two plain objects that the conversions use as maps
    ([linkedServices] and [servicesMap]) are modelled with their
    prototype: a read that finds no own entry goes on to [Object.prototype],
    and an assignment to "__proto__" replaces the prototype instead of
    creating an entry. *)

From Stdlib Require Import ZArith Lia Ascii DecimalString DecimalNat.
From stdpp Require Import base option strings list gmap functions.


(** ** JavaScript values *)

(** The primitive values that travel through the model untouched
    (characteristic values, the entries of [props] and [context]). *)
Inductive Value :=
| VUndefined
| VNull
| VBool (b : bool)
| VNumber (z : Z)
| VString (s : string).

Definition Props := list (string * Value).
Definition Context := list (string * Value).

(** [!x] / [x || d] on a value that is [undefined] or a string: the empty
    string is falsy like [undefined]. *)
Definition truthy (x : option string) : bool :=
  match x with
  | Some s => negb (bool_decide (s = ""))
  | None => false
  end.

(** [x || ""] on such a value. *)
Definition or_empty (x : option string) : string :=
  match x with
  | Some s => if truthy x then s else ""
  | None => ""
  end.

(** The key a [for (let index in array)] loop binds at position [i]: the
    decimal string of the index. *)
Definition index_key (i : nat) : string :=
  NilEmpty.string_of_uint (Nat.to_uint i).

(** A service object is identified by its address in the store. *)
Definition addr := nat.

(** The functions every plain object inherits from [Object.prototype],
    by property name. *)
Definition Object_prototype_functions : list string :=
  ["constructor"; "hasOwnProperty"; "isPrototypeOf"; "propertyIsEnumerable";
   "toLocaleString"; "toString"; "valueOf"; "__defineGetter__";
   "__defineSetter__"; "__lookupGetter__"; "__lookupSetter__"].

(** The property names a plain object answers to without having an entry
    of that name: the inherited functions and the accessor "__proto__". *)
Definition Object_prototype_names : list string :=
  "__proto__" :: Object_prototype_functions.

(** A truthy value that is no service object. Reading a property off a
    plain object can return one: [Object.prototype] itself (under
    "__proto__"), one of its functions, or, once a service object has
    become the prototype, what a property of that service holds. Objects
    are told apart by identity, strings by their text. *)
Inductive Other :=
| ObjectPrototype
| BuiltIn (name : string)
| StringValue (s : string)
| ArrayOf (owner : addr) (name : string)
| Method (name : string).

#[global] Instance Other_eq_dec : EqDecision Other.
Proof. solve_decision. Defined.

(** What [object[key]] finds when the object maps keys to services: a
    service, another truthy value, or a falsy value ([undefined], the
    empty string). *)
Inductive Resolution :=
| Resolves (service : addr)
| ResolvesOther (value : Other)
| Unresolved.

(** The value a truthy resolution passes on. *)
Definition link_of (r : Resolution) : option (addr + Other) :=
  match r with
  | Resolves service => Some (inl service)
  | ResolvesOther value => Some (inr value)
  | Unresolved => None
  end.

(** What [Object.prototype] answers for a key that nothing before it on
    the prototype chain has: the accessor "__proto__" returns the
    prototype of the object the property was read from. *)
Definition Object_prototype (prototype : Resolution) (key : string) : Resolution :=
  if bool_decide (key = "__proto__") then prototype
  else if bool_decide (key ∈ Object_prototype_functions)
       then ResolvesOther (BuiltIn key)
       else Unresolved.

(** The single-character strings [for (i in text)] reads off a string. *)
Definition characters (text : string) : list string :=
  (λ c, String c EmptyString) <$> String.list_ascii_of_string text.

(** What a call leaves behind: a value, or a thrown exception. *)
Inductive Exception :=
| EmptyDisplayName                         (* "Accessories must be created with a non-empty displayName." *)
| MissingUUID                              (* "Accessories must be created with a valid UUID." *)
| InvalidUUID (UUID : string)              (* "UUID ... is not a valid UUID." *)
| DuplicateUUID (UUID : string)            (* "Cannot add a Service with the same UUID ... without also defining a unique subtype" *)
| DuplicateUUIDAndSubtype (UUID : string) (subtype : option string)
                                           (* "Cannot add a Service with the same UUID ... and subtype ..." *)
| TypeError.                               (* raised by the engine: property access on undefined, call of a value that is no function *)

Inductive Completion (A : Type) :=
| Return (a : A)
| Throw (e : Exception).
Arguments Return {A} a.
Arguments Throw {A} e.

(** The spec's error taxonomy over the throw sites of the source. *)
Definition isInvalidArgumentError (e : Exception) : bool :=
  match e with
  | EmptyDisplayName | MissingUUID | InvalidUUID _ => true
  | _ => false
  end.

Definition isDuplicateIdentityError (e : Exception) : bool :=
  match e with
  | DuplicateUUID _ | DuplicateUUIDAndSubtype _ _ => true
  | _ => false
  end.

(** ** The hap-nodejs objects the accessory is made of *)

Module Characteristic.
Record t := mk {
  displayName : string;
  UUID : string;
  props : Props;
  value : Value;
  eventOnlyCharacteristic : bool;
}.

(** Modelled from the spec: [new Characteristic(displayName, UUID, props)]
    of hap-nodejs, which is outside this repository; a characteristic is
    constructed from its display name, UUID and props, with no value yet
    and [eventOnlyCharacteristic] off. *)
Definition new (displayName UUID : string) (props : Props) : t :=
  {| displayName := displayName; UUID := UUID; props := props;
     value := VNull; eventOnlyCharacteristic := false |}.

Definition set_value (v : Value) (c : t) : t :=
  {| displayName := displayName c; UUID := UUID c; props := props c;
     value := v; eventOnlyCharacteristic := eventOnlyCharacteristic c |}.

Definition set_eventOnlyCharacteristic (b : bool) (c : t) : t :=
  {| displayName := displayName c; UUID := UUID c; props := props c;
     value := value c; eventOnlyCharacteristic := b |}.

(** A characteristic type ([Characteristic.Name], ...): the display name
    and UUID its instances carry. *)
Record type := mkType { type_displayName : string; type_UUID : string }.

(** Modelled from the spec: the characteristic types of hap-nodejs that
    the constructor and the accessory-information service name; they are
    told apart by their UUIDs. *)
Definition Identify := mkType "Identify" "00000014-0000-1000-8000-0026BB765291".
Definition Manufacturer := mkType "Manufacturer" "00000020-0000-1000-8000-0026BB765291".
Definition Model := mkType "Model" "00000021-0000-1000-8000-0026BB765291".
Definition Name := mkType "Name" "00000023-0000-1000-8000-0026BB765291".
Definition SerialNumber := mkType "Serial Number" "00000030-0000-1000-8000-0026BB765291".
Definition FirmwareRevision := mkType "Firmware Revision" "00000052-0000-1000-8000-0026BB765291".

(** Modelled from the spec: a fresh characteristic of a type. *)
Definition of_type (ty : type) : t := new (type_displayName ty) (type_UUID ty) [].
End Characteristic.

Module Service.
Record t := mk {
  displayName : option string;
  name : option string;
  UUID : string;
  subtype : option string;
  characteristics : list Characteristic.t;
  (* what [addLinkedService] was given: service objects, and whatever
     else was passed to it *)
  linkedServices : list (addr + Other);
  (* the constructor functions on the object's prototype chain, by
     identity: what [instanceof] consults *)
  prototypes : list nat;
}.

(** A constructor function ([Service], [Service.AccessoryInformation],
    ...): [ctor_id] is the function's identity, [ctor_UUID] its static
    [UUID] property, [construct] what [new] builds from the arguments. *)
Record ctor := mkCtor {
  ctor_id : nat;
  ctor_UUID : option string;
  construct : list (option string) → t;
}.

Definition set_characteristics (cs : list Characteristic.t) (s : t) : t :=
  {| displayName := displayName s; name := name s; UUID := UUID s;
     subtype := subtype s; characteristics := cs;
     linkedServices := linkedServices s; prototypes := prototypes s |}.

Definition set_linkedServices (ls : list (addr + Other)) (s : t) : t :=
  {| displayName := displayName s; name := name s; UUID := UUID s;
     subtype := subtype s; characteristics := characteristics s;
     linkedServices := ls; prototypes := prototypes s |}.

(** Modelled from the spec: [new Service(displayName, UUID, subtype)] of
    hap-nodejs, which is outside this repository; the deserializer
    constructs a service from exactly these three, with no linked
    services, and replaces its characteristic list at once by
    [_sideloadCharacteristics]. *)
Definition new (displayName : option string) (UUID : string)
    (subtype : option string) : t :=
  {| displayName := displayName; name := None; UUID := UUID;
     subtype := subtype; characteristics := []; linkedServices := [];
     prototypes := [0] |}.   (* 0 is [Service] itself *)

(** Modelled from the spec: [_sideloadCharacteristics], the bulk load of
    a characteristic list into a service (hap-nodejs). *)
Definition _sideloadCharacteristics (cs : list Characteristic.t) (s : t) : t :=
  set_characteristics cs s.

(** Modelled from the spec: [addLinkedService] of hap-nodejs adds an
    edge to the target unless the service already links to that very
    object; it does not look at what it is given. *)
Definition addLinkedService (target : addr + Other) (s : t) : t :=
  if bool_decide (target ∈ linkedServices s) then s
  else set_linkedServices (linkedServices s ++ [target]) s.

(** Modelled from the spec: the characteristic list after
    [setCharacteristic(type, value)]: the first characteristic of that
    type gets the value, and one is added when the list has none. *)
Fixpoint set_first (ty : Characteristic.type) (v : Value)
    (cs : list Characteristic.t) : list Characteristic.t :=
  match cs with
  | [] => [Characteristic.set_value v (Characteristic.of_type ty)]
  | c :: cs' =>
      if bool_decide (Characteristic.UUID c = Characteristic.type_UUID ty)
      then Characteristic.set_value v c :: cs'
      else c :: set_first ty v cs'
  end.

(** Modelled from the spec: [setCharacteristic(type, value)] of
    hap-nodejs, which is outside this repository, sets the value of the
    service's characteristic of that type, adding the characteristic when
    the service has none. *)
Definition setCharacteristic (ty : Characteristic.type) (v : Value) (s : t) : t :=
  set_characteristics (set_first ty v (characteristics s)) s.

(** The value of the service's characteristic of a type, if it has one. *)
Definition getValue (ty : Characteristic.type) (s : t) : option Value :=
  Characteristic.value <$>
    find (λ c, bool_decide (Characteristic.UUID c = Characteristic.type_UUID ty))
         (characteristics s).

(** Modelled from the spec: the UUID of hap-nodejs's accessory-information
    service type. *)
Definition AccessoryInformation_UUID := "0000003E-0000-1000-8000-0026BB765291".

(** Modelled from the spec: [Service.AccessoryInformation] of hap-nodejs,
    the constructor of the accessory-information service; it takes a
    display name and a subtype and creates the service with its required
    characteristics, none of them set yet. *)
Definition AccessoryInformation : ctor :=
  mkCtor 1 (Some AccessoryInformation_UUID) (λ args,
    {| displayName := default None (args !! 0); name := None;
       UUID := AccessoryInformation_UUID;
       subtype := default None (args !! 1);
       characteristics :=
         Characteristic.of_type <$>
           [Characteristic.Identify; Characteristic.Manufacturer;
            Characteristic.Model; Characteristic.Name;
            Characteristic.SerialNumber; Characteristic.FirmwareRevision];
       linkedServices := [];
       prototypes := [1; 0] |}).

(** [service instanceof f]: [f] is on the prototype chain of the object. *)
Definition instanceof (s : t) (f : ctor) : bool :=
  bool_decide (ctor_id f ∈ prototypes s).

(** The composite key [UUID + (subtype || "")]. *)
Definition key (s : t) : string := UUID s +:+ or_empty (subtype s).

(** A property that holds a string or nothing, as a resolution. *)
Definition text (x : option string) : Resolution :=
  if truthy x then ResolvesOther (StringValue (or_empty x)) else Unresolved.

(** Modelled from the spec: the methods of hap-nodejs's services that
    the accessory calls, and the [constructor] that their prototype
    carries. *)
Definition methods : list string :=
  ["constructor"; "addLinkedService"; "_sideloadCharacteristics";
   "setCharacteristic"; "removeAllListeners"].

(** Modelled from the spec: what [object[key]] finds at the service
    object at [a] when that object is on the prototype chain of
    [object]: the fields of the service and the methods above, and
    nothing ([None]) for any other key, for which the search goes on to
    [Object.prototype]. The service objects of hap-nodejs, which is
    outside this repository, have further properties. *)
Definition property (a : addr) (s : t) (key : string) : option Resolution :=
  if bool_decide (key = "displayName") then Some (text (displayName s))
  else if bool_decide (key = "name") then Some (text (name s))
  else if bool_decide (key = "UUID") then Some (text (Some (UUID s)))
  else if bool_decide (key = "subtype") then Some (text (subtype s))
  else if bool_decide (key = "characteristics")
       then Some (ResolvesOther (ArrayOf a "characteristics"))
  else if bool_decide (key = "linkedServices")
       then Some (ResolvesOther (ArrayOf a "linkedServices"))
  else if bool_decide (key ∈ methods) then Some (ResolvesOther (Method key))
  else None.
End Service.

(** ** The object store *)

Record Store := mkStore { cell : addr → Service.t; next : addr }.

Definition alloc (s : Service.t) (σ : Store) : addr * Store :=
  (next σ, {| cell := <[next σ := s]> (cell σ); next := S (next σ) |}).

(** In-place mutation of the object at [a]. *)
Definition mutate (a : addr) (f : Service.t → Service.t) (σ : Store) : Store :=
  {| cell := alter f a (cell σ); next := next σ |}.

(** ** The external HAP accessory (the collaborator) *)

Definition Category := N.

Module Accessory.
(** Modelled from the spec: [Accessory.Categories.OTHER] of hap-nodejs,
    the generic category; categories are non-zero numbers. *)
Definition OTHER : Category := 1%N.

Record t := mk {
  displayName : string;
  UUID : string;
  services : list addr;
  category : Category;
  reachable : bool;
}.

(** Modelled from the spec: the collaborator contract (hap-nodejs's
    [Accessory], outside this repository). [addService] mirrors an
    addition onto the collaborator's own service list. *)
Definition addService (service : addr) (h : t) : t :=
  {| displayName := displayName h; UUID := UUID h;
     services := services h ++ [service];
     category := category h; reachable := reachable h |}.

(** Modelled from the spec: the collaborator's list without the first
    entry that is the given object. *)
Fixpoint remove_first (service : addr) (l : list addr) : list addr :=
  match l with
  | [] => []
  | x :: l' => if bool_decide (x = service) then l' else x :: remove_first service l'
  end.

(** Modelled from the spec: [removeService] mirrors a removal onto the
    collaborator. *)
Definition removeService (service : addr) (h : t) : t :=
  {| displayName := displayName h; UUID := UUID h;
     services := remove_first service (services h);
     category := category h; reachable := reachable h |}.

(** Modelled from the spec: [updateReachability] sets the collaborator's
    reachability. *)
Definition updateReachability (reachable : bool) (h : t) : t :=
  {| displayName := displayName h; UUID := UUID h;
     services := services h;
     category := category h; reachable := reachable |}.
End Accessory.

(** ** Plain objects used as dictionaries *)

(** A plain object whose keys are enumerated: its own entries in the
    order [for (key in object)] visits them; assigning to an existing key
    keeps its place, a new key goes last. (JavaScript visits keys that
    spell an array index before the others; the properties proved of the
    loops over such an object speak of the membership of entries and do
    not depend on their order.) *)
Module Obj.
Definition t (V : Type) := list (string * V).

(** The own entry of a key. *)
Fixpoint get {V} (k : string) (o : t V) : option V :=
  match o with
  | [] => None
  | (k', v) :: o' => if bool_decide (k' = k) then Some v else get k o'
  end.

(** The entries after an own property [k] was created or overwritten. *)
Fixpoint define {V} (k : string) (v : V) (o : t V) : t V :=
  match o with
  | [] => [(k, v)]
  | (k', v') :: o' =>
      if bool_decide (k' = k) then (k, v) :: o' else (k', v') :: define k v o'
  end.

(** The entries after [object[k] = v], for [v] an object. Under the key
    "__proto__" the assignment reaches the accessor of [Object.prototype]
    and makes [v] the prototype of the object: no entry is created, and
    the caller records the new prototype. *)
Definition set {V} (k : string) (v : V) (o : t V) : t V :=
  if bool_decide (k = "__proto__") then o else define k v o.

(** The pairs of a key and the keys under it that the nested loops
    [for (key in object) for (i in object[key]) object[key][i]] visit,
    for an object whose own entries are arrays of strings: the own
    entries, and after them what the prototype adds when it is an array.
    Such a prototype is visited index by index, an index that is also an
    own key apart, and what is found at the index is a string, whose
    characters the inner loop reads. *)
Definition for_in (o : t (list string)) (prototype : option (list string))
    : list (string * list string) :=
  o ++
  match prototype with
  | Some array =>
      filter (λ entry, entry.1 ∉ o.*1)
             (imap (λ i element, (index_key i, characters element)) array)
  | None => []
  end.
End Obj.

(** ** The flat dictionary *)

Module CharacteristicPresentation.
Record t := mk {
  displayName : string;
  UUID : string;
  props : Props;
  value : Value;
  eventOnlyCharacteristic : bool;
}.
End CharacteristicPresentation.

Module ServicePresentation.
Record t := mk {
  displayName : option string;
  UUID : string;
  subtype : option string;
  characteristics : list CharacteristicPresentation.t;
}.
End ServicePresentation.

Module Dictionary.
Record t := mk {
  plugin : option string;
  platform : option string;
  displayName : string;
  UUID : string;
  category : Category;
  context : Context;
  linkedServices : option (Obj.t (list string));
  (* the prototype of the [linkedServices] object when it is an array
     (an assignment to its "__proto__" made it so); a dictionary that is
     plain data has none *)
  linkedServices_prototype : option (list string);
  services : list ServicePresentation.t;
}.
End Dictionary.

(** ** PlatformAccessory *)

Module PlatformAccessory.
Record t := mk {
  displayName : string;
  UUID : string;
  category : Category;
  services : list addr;
  reachable : bool;
  context : Context;
  _associatedPlugin : option string;
  _associatedPlatform : option string;
  _associatedHAPAccessory : option Accessory.t;
}.

Definition set_services (l : list addr) (this : t) : t :=
  {| displayName := displayName this; UUID := UUID this;
     category := category this; services := l;
     reachable := reachable this; context := context this;
     _associatedPlugin := _associatedPlugin this;
     _associatedPlatform := _associatedPlatform this;
     _associatedHAPAccessory := _associatedHAPAccessory this |}.

Definition set_reachable (b : bool) (this : t) : t :=
  {| displayName := displayName this; UUID := UUID this;
     category := category this; services := services this;
     reachable := b; context := context this;
     _associatedPlugin := _associatedPlugin this;
     _associatedPlatform := _associatedPlatform this;
     _associatedHAPAccessory := _associatedHAPAccessory this |}.

Definition set_associatedHAPAccessory (h : option Accessory.t) (this : t) : t :=
  {| displayName := displayName this; UUID := UUID this;
     category := category this; services := services this;
     reachable := reachable this; context := context this;
     _associatedPlugin := _associatedPlugin this;
     _associatedPlatform := _associatedPlatform this;
     _associatedHAPAccessory := h |}.

(** *** addService *)

(** [x.toString()] on a value that is [undefined] or a string. *)
Definition toString (x : option string) : Completion string :=
  match x with
  | Some s => Return s
  | None => Throw TypeError
  end.

(** The duplicate check: the [for (let index in this.services)] loop of
    [addService]; [Some e] when it throws [e]. *)
Fixpoint addService_check (σ : Store) (service : Service.t)
    (l : list addr) : option Exception :=
  match l with
  | [] => None
  | a :: rest =>
      let existing := cell σ a in
      if bool_decide (Service.UUID existing = Service.UUID service) then
        if negb (truthy (Service.subtype service)) then
          Some (DuplicateUUID (Service.UUID existing))
        else
          match toString (Service.subtype service) with
          | Throw e => Some e
          | Return mine =>
              match toString (Service.subtype existing) with
              | Throw e => Some e
              | Return theirs =>
                  if bool_decide (mine = theirs) then
                    Some (DuplicateUUIDAndSubtype (Service.UUID existing)
                                                  (Service.subtype existing))
                  else addService_check σ service rest
              end
          end
      else addService_check σ service rest
  end.

(** The argument of [addService]: a ready service object, or a
    constructor function followed by its arguments. *)
Inductive serviceArgument :=
| Instance (service : addr)
| Constructor (service : Service.ctor) (args : list (option string)).

(** [if (typeof service === "function") service = new (...)]: the service
    object the rest of [addService] works on. *)
Definition addService_argument (arg : serviceArgument) (σ : Store)
    : addr * Store :=
  match arg with
  | Instance a => (a, σ)
  | Constructor f args => alloc (Service.construct f args) σ
  end.

Definition addService (arg : serviceArgument) (this : t) (σ : Store)
    : Completion addr * t * Store :=
  let '(service, σ) := addService_argument arg σ in
  match addService_check σ (cell σ service) (services this) with
  | Some e => (Throw e, this, σ)
  | None =>
      let this := set_services (services this ++ [service]) this in
      let this :=
        match _associatedHAPAccessory this with
        | Some h => set_associatedHAPAccessory (Some (Accessory.addService service h)) this
        | None => this
        end in
      (Return service, this, σ)
  end.

(** *** The constructor *)

Section Construction.
(** [uuid.isValid] of hap-nodejs: the UUID-format validation. *)
Variable isValid : string → bool.

Definition constructor (displayName UUID : option string)
    (category : option Category) (σ : Store) : Completion (t * Store) :=
  match displayName with
  | None | Some "" => Throw EmptyDisplayName
  | Some displayName =>
      match UUID with
      | None | Some "" => Throw MissingUUID
      | Some UUID =>
          if negb (isValid UUID) then Throw (InvalidUUID UUID)
          else
            let this :=
              {| displayName := displayName;
                 UUID := UUID;
                 category :=
                   match category with
                   | Some c => if bool_decide (c = 0%N) then Accessory.OTHER else c
                   | None => Accessory.OTHER
                   end;
                 services := [];
                 reachable := false;
                 context := [];
                 _associatedPlugin := None;
                 _associatedPlatform := None;
                 _associatedHAPAccessory := None |} in
            match addService (Constructor Service.AccessoryInformation []) this σ with
            | (Throw e, _, _) => Throw e
            | (Return service, this, σ) =>
                let σ := mutate service (Service.setCharacteristic Characteristic.Name (VString displayName)) σ in
                let σ := mutate service (Service.setCharacteristic Characteristic.Manufacturer (VString "Default-Manufacturer")) σ in
                let σ := mutate service (Service.setCharacteristic Characteristic.Model (VString "Default-Model")) σ in
                let σ := mutate service (Service.setCharacteristic Characteristic.SerialNumber (VString "Default-SerialNumber")) σ in
                Return (this, σ)
            end
      end
  end.
End Construction.

(** *** removeService *)

(** The search loop of [removeService]: the position of the first
    entry that is the very object [service], with the key the loop bound
    there; [None] when the loop ends with [targetServiceIndex] undefined. *)
Fixpoint removeService_find (service : addr) (l : list addr) (index : nat)
    : option (nat * string) :=
  match l with
  | [] => None
  | x :: rest =>
      if bool_decide (x = service) then Some (index, index_key index)
      else removeService_find service rest (S index)
  end.

(** [service.removeAllListeners()] acts on the service's event
    subscriptions, which are no part of the modelled state. *)
Definition removeService (service : addr) (this : t) : t :=
  match removeService_find service (services this) 0 with
  | Some (index, targetServiceIndex) =>
      if truthy (Some targetServiceIndex) then
        let this := set_services (delete index (services this)) this in
        match _associatedHAPAccessory this with
        | Some h => set_associatedHAPAccessory (Some (Accessory.removeService service h)) this
        | None => this
        end
      else this
  | None => this
  end.

(** *** getService and getServiceByUUIDAndSubType *)

(** The argument of the lookups by its [typeof]. *)
Inductive selector :=
| OfString (name : string)
| OfFunction (name : Service.ctor)
| OfOther.

(** The test of [getService] on one service: the string branch compares
    [displayName] and [name], the function branch asks [instanceof] or
    compares the function's [UUID]. *)
Definition selects (name : selector) (service : Service.t) : bool :=
  match name with
  | OfString n =>
      bool_decide (Service.displayName service = Some n)
      || bool_decide (Service.name service = Some n)
  | OfFunction f =>
      Service.instanceof service f
      || bool_decide (Service.ctor_UUID f = Some (Service.UUID service))
  | OfOther => false
  end.

Fixpoint getService_loop (σ : Store) (name : selector) (l : list addr)
    : option addr :=
  match l with
  | [] => None
  | a :: rest =>
      if selects name (cell σ a) then Some a
      else getService_loop σ name rest
  end.

Definition getService (name : selector) (this : t) (σ : Store) : option addr :=
  getService_loop σ name (services this).

Fixpoint getServiceByUUIDAndSubType_loop (σ : Store) (UUID : selector)
    (subtype : option string) (l : list addr) : option addr :=
  match l with
  | [] => None
  | a :: rest =>
      if selects UUID (cell σ a)
         && bool_decide (Service.subtype (cell σ a) = subtype)
      then Some a
      else getServiceByUUIDAndSubType_loop σ UUID subtype rest
  end.

Definition getServiceByUUIDAndSubType (UUID : selector)
    (subtype : option string) (this : t) (σ : Store) : option addr :=
  getServiceByUUIDAndSubType_loop σ UUID subtype (services this).

(** *** updateReachability *)

Definition updateReachability (reachable : bool) (this : t) : t :=
  let this := set_reachable reachable this in
  match _associatedHAPAccessory this with
  | Some h =>
      set_associatedHAPAccessory
        (Some (Accessory.updateReachability reachable h)) this
  | None => this
  end.

(** *** _prepareAssociatedHAPAccessory *)

(** The state the collaborator is created with; the identify relay it
    subscribes to is outside the modelled state. (A configured camera
    source is handed to the collaborator before the sideload, which then
    sets the collaborator's service list to the model's.) *)
Definition _prepareAssociatedHAPAccessory (this : t) : t :=
  set_associatedHAPAccessory
    (Some {| Accessory.displayName := displayName this;
             Accessory.UUID := UUID this;
             Accessory.services := services this;
             Accessory.category := category this;
             Accessory.reachable := reachable this |}) this.

(** *** configureCameraSource *)






(** *** _dictionaryPresentation *)

Definition characteristicPresentation (characteristic : Characteristic.t)
    : CharacteristicPresentation.t :=
  {| CharacteristicPresentation.displayName := Characteristic.displayName characteristic;
     CharacteristicPresentation.UUID := Characteristic.UUID characteristic;
     CharacteristicPresentation.props := Characteristic.props characteristic;
     CharacteristicPresentation.value := Characteristic.value characteristic;
     CharacteristicPresentation.eventOnlyCharacteristic :=
       Characteristic.eventOnlyCharacteristic characteristic |}.

(** [(linkedServices.subtype || "")] as the concatenation in the loop
    over [service.linkedServices] reads it. The name [linkedServices]
    there is the mapping under construction, so the property read is that
    mapping's entry for the key spelled "subtype": undefined until a
    service with that composite key was recorded, and from then on an
    array, which is truthy and joins its elements with commas when
    concatenated to a string. *)
Definition linkedServices_subtype_or_empty
    (linkedServices : Obj.t (list string)) : string :=
  match Obj.get "subtype" linkedServices with
  | Some array => String.concat "," array
  | None => ""
  end.

(** [linked.UUID] as the concatenation reads it off an entry of
    [service.linkedServices]: the UUID of a service; a value that is no
    service has no such property, and [undefined] concatenates as the
    text "undefined". *)
Definition linked_UUID (σ : Store) (linked : addr + Other) : string :=
  match linked with
  | inl service => Service.UUID (cell σ service)
  | inr _ => "undefined"
  end.

(** One round of the loop over [this.services]: the service list, the
    own entries of [linkedServices] and its prototype after it. The read
    of [linkedServices.subtype] finds an own entry or nothing, whatever
    the prototype: arrays have no property of that name. *)
Definition _dictionaryPresentation_service (σ : Store)
    (acc : list ServicePresentation.t * Obj.t (list string) * option (list string))
    (a : addr)
    : list ServicePresentation.t * Obj.t (list string) * option (list string) :=
  let '(services, linkedServices, prototype) := acc in
  let service := cell σ a in
  let linkedServicesPresentation :=
    (λ linked, linked_UUID σ linked
               +:+ linkedServices_subtype_or_empty linkedServices)
      <$> Service.linkedServices service in
  let key := Service.UUID service +:+ or_empty (Service.subtype service) in
  let prototype :=
    if bool_decide (key = "__proto__") then Some linkedServicesPresentation
    else prototype in
  let linkedServices := Obj.set key linkedServicesPresentation linkedServices in
  let characteristics :=
    characteristicPresentation <$> Service.characteristics service in
  (services ++ [ {| ServicePresentation.displayName := Service.displayName service;
                    ServicePresentation.UUID := Service.UUID service;
                    ServicePresentation.subtype := Service.subtype service;
                    ServicePresentation.characteristics := characteristics |} ],
   linkedServices, prototype).

Definition _dictionaryPresentation (this : t) (σ : Store) : Dictionary.t :=
  let '(services, linkedServices, prototype) :=
    fold_left (_dictionaryPresentation_service σ) (services this) ([], [], None) in
  {| Dictionary.plugin := _associatedPlugin this;
     Dictionary.platform := _associatedPlatform this;
     Dictionary.displayName := displayName this;
     Dictionary.UUID := UUID this;
     Dictionary.category := category this;
     Dictionary.context := context this;
     Dictionary.linkedServices := Some linkedServices;
     Dictionary.linkedServices_prototype := prototype;
     Dictionary.services := services |}.

(** *** _configFromData *)

Definition hapCharacteristic (characteristic : CharacteristicPresentation.t)
    : Characteristic.t :=
  Characteristic.set_value (CharacteristicPresentation.value characteristic)
    (Characteristic.set_eventOnlyCharacteristic
       (CharacteristicPresentation.eventOnlyCharacteristic characteristic)
       (Characteristic.new (CharacteristicPresentation.displayName characteristic)
                           (CharacteristicPresentation.UUID characteristic)
                           (CharacteristicPresentation.props characteristic))).

(** The object [servicesMap]: its own entries, and the service that an
    assignment to "__proto__" made its prototype, if there was one;
    without it the prototype is [Object.prototype]. *)
Record ServicesMap := mkServicesMap {
  own : gmap string addr;
  prototype : option addr;
}.

(** [servicesMap[key] = hapService]. *)
Definition servicesMap_set (key : string) (hapService : addr)
    (servicesMap : ServicesMap) : ServicesMap :=
  if bool_decide (key = "__proto__")
  then {| own := own servicesMap; prototype := Some hapService |}
  else {| own := <[key := hapService]> (own servicesMap);
          prototype := prototype servicesMap |}.

(** [servicesMap[key]]: the own entry, or else what the prototype chain
    has under that name. *)
Definition servicesMap_get (σ : Store) (servicesMap : ServicesMap)
    (key : string) : Resolution :=
  match own servicesMap !! key with
  | Some hapService => Resolves hapService
  | None =>
      match prototype servicesMap with
      | Some service =>
          match Service.property service (cell σ service) key with
          | Some found => found
          | None => Object_prototype (Resolves service) key
          end
      | None => Object_prototype (ResolvesOther ObjectPrototype) key
      end
  end.

(** One round of the loop over [data.services]: the service list, the
    lookup [servicesMap] and the store after it. *)
Definition _configFromData_service
    (acc : list addr * ServicesMap * Store)
    (service : ServicePresentation.t) : list addr * ServicesMap * Store :=
  let '(services, servicesMap, σ) := acc in
  let '(hapService, σ) :=
    alloc (Service.new (ServicePresentation.displayName service)
                       (ServicePresentation.UUID service)
                       (ServicePresentation.subtype service)) σ in
  let characteristics :=
    hapCharacteristic <$> ServicePresentation.characteristics service in
  let σ := mutate hapService (Service._sideloadCharacteristics characteristics) σ in
  let servicesMap :=
    servicesMap_set (ServicePresentation.UUID service
                     +:+ or_empty (ServicePresentation.subtype service))
                    hapService servicesMap in
  (services ++ [hapService], servicesMap, σ).

(** The inner loop over [linkedServiceKeys], entered when [servicesMap[key]]
    is truthy. For a target key that resolves to a truthy value, the
    call [servicesMap[key].addLinkedService(...)] adds the value to the
    source when the source is a service; any other source has no such
    method, and the call throws. *)
Fixpoint _configFromData_targets (servicesMap : ServicesMap) (key : string)
    (linkedServiceKeys : list string) (σ : Store) : Completion unit * Store :=
  match linkedServiceKeys with
  | [] => (Return tt, σ)
  | linkedServiceKey :: rest =>
      match link_of (servicesMap_get σ servicesMap linkedServiceKey) with
      | Some target =>
          match servicesMap_get σ servicesMap key with
          | Resolves source =>
              _configFromData_targets servicesMap key rest
                (mutate source (Service.addLinkedService target) σ)
          | _ => (Throw TypeError, σ)
          end
      | None => _configFromData_targets servicesMap key rest σ
      end
  end.

(** The loop over the keys of [data.linkedServices]. *)
Fixpoint _configFromData_links (servicesMap : ServicesMap)
    (linkedServices : list (string * list string)) (σ : Store)
    : Completion unit * Store :=
  match linkedServices with
  | [] => (Return tt, σ)
  | (key, linkedServiceKeys) :: rest =>
      match servicesMap_get σ servicesMap key with
      | Unresolved => _configFromData_links servicesMap rest σ
      | _ =>
          match _configFromData_targets servicesMap key linkedServiceKeys σ with
          | (Return _, σ) => _configFromData_links servicesMap rest σ
          | (Throw e, σ) => (Throw e, σ)
          end
      end
  end.

(** The first loop: the reconstructed services in input order, the lookup
    from composite key to reconstructed service, and the store holding
    them. *)
Definition _configFromData_services (data : Dictionary.t) (σ : Store)
    : list addr * ServicesMap * Store :=
  fold_left _configFromData_service (Dictionary.services data)
            ([], {| own := ∅; prototype := None |}, σ).

(** The block guarded by [if (data.linkedServices)]. *)
Definition _configFromData_linkedServices (data : Dictionary.t)
    (servicesMap : ServicesMap) (σ : Store) : Completion unit * Store :=
  match Dictionary.linkedServices data with
  | Some linkedServices =>
      _configFromData_links servicesMap
        (Obj.for_in linkedServices (Dictionary.linkedServices_prototype data)) σ
  | None => (Return tt, σ)
  end.

(** The fields are assigned first, the service list last: a call that
    throws in between leaves the model with the fields of the dictionary
    and the service list it had. *)
Definition _configFromData (data : Dictionary.t) (this : t) (σ : Store)
    : Completion unit * t * Store :=
  let this :=
    {| displayName := Dictionary.displayName data;
       UUID := Dictionary.UUID data;
       category := Dictionary.category data;
       services := services this;
       reachable := false;
       context := Dictionary.context data;
       _associatedPlugin := Dictionary.plugin data;
       _associatedPlatform := Dictionary.platform data;
       _associatedHAPAccessory := _associatedHAPAccessory this |} in
  let '(services, servicesMap, σ) := _configFromData_services data σ in
  match _configFromData_linkedServices data servicesMap σ with
  | (Return _, σ) => (Return tt, set_services services this, σ)
  | (Throw e, σ) => (Throw e, this, σ)
  end.
End PlatformAccessory.

Import PlatformAccessory.

(** ** The prerequisites script *)

Module Prerequisites.
(** What a run of the script does to the outside, in order. *)
Inductive Event :=
| ThrobberStart (text : string)       (* Ora(text).start() *)
| ExecSync (command : string)         (* Process.execSync(command) *)
| ThrobberStopAndPersist.             (* throbber.stopAndPersist() *)

(** How a run ends: it returns, or [execSync] threw. *)
Inductive Outcome :=
| Returned
| CommandFailed (command : string).

Section Script.
(** [File.existsSync]: which paths exist. *)
Variable existsSync : string → bool.
(** Whether [Process.execSync] returns for a command; it throws when the
    command does not exit with status 0. *)
Variable succeeds : string → bool.

Definition getPms : option string :=
  if existsSync "/usr/bin/dnf" then Some "dnf"
  else if existsSync "/usr/bin/yum" then Some "yum"
  else if existsSync "/usr/bin/apt-get" then Some "apt"
  else None.

(** The body shared by the three cases of the switch: start the
    throbber, run the command, stop the throbber. *)
Definition install (command : string) : Outcome * list Event :=
  if succeeds command then
    (Returned,
     [ThrobberStart "Installing Prerequisites"; ExecSync command;
      ThrobberStopAndPersist])
  else
    (CommandFailed command,
     [ThrobberStart "Installing Prerequisites"; ExecSync command]).

(** The exported function: [switch (getPms())]. *)
Definition prerequisites : Outcome * list Event :=
  match getPms with
  | Some pms =>
      if bool_decide (pms = "dnf") then
        install "dnf install -y perl curl avahi-compat-libdns_sd-devel"
      else if bool_decide (pms = "yum") then
        install "yum install -y perl curl avahi-compat-libdns_sd-devel"
      else if bool_decide (pms = "apt") then
        install "apt-get install -y perl curl libavahi-compat-libdnssd-dev"
      else (Returned, [])
  | None => (Returned, [])
  end.
End Script.
End Prerequisites.

(** ** The vocabulary of the statements *)

(** The three rejections of the constructor, in the order it tests them. *)
Definition invalid_arguments (isValid : string → bool)
    (displayName UUID : option string) : Prop :=
  truthy displayName = false
  ∨ truthy UUID = false
  ∨ ∃ u, UUID = Some u ∧ isValid u = false.

(** [r] is the first entry of [l] that passes [test], or nothing when no
    entry passes. *)
Definition first_passing (test : addr → bool) (l : list addr)
    (r : option addr) : Prop :=
  match r with
  | Some a =>
      ∃ before after, l = before ++ a :: after ∧ test a = true
                      ∧ ∀ b, b ∈ before → test b = false
  | None => ∀ b, b ∈ l → test b = false
  end.

(** The composite key of a serialized service, as [_configFromData]
    computes it. *)
Definition presentation_key (sp : ServicePresentation.t) : string :=
  ServicePresentation.UUID sp +:+ or_empty (ServicePresentation.subtype sp).

(** The service object the first loop of [_configFromData] leaves in the
    store for a serialized service. *)
Definition reconstructed (sp : ServicePresentation.t) : Service.t :=
  Service._sideloadCharacteristics
    (hapCharacteristic <$> ServicePresentation.characteristics sp)
    (Service.new (ServicePresentation.displayName sp)
                 (ServicePresentation.UUID sp)
                 (ServicePresentation.subtype sp)).

(** A service with its links erased: what the second loop never touches. *)
Definition unlinked (s : Service.t) : Service.t := Service.set_linkedServices [] s.

(** The entry of the service list that [_dictionaryPresentation] emits
    for the service at [a]. *)
Definition servicePresentation (σ : Store) (a : addr) : ServicePresentation.t :=
  {| ServicePresentation.displayName := Service.displayName (cell σ a);
     ServicePresentation.UUID := Service.UUID (cell σ a);
     ServicePresentation.subtype := Service.subtype (cell σ a);
     ServicePresentation.characteristics :=
       characteristicPresentation <$> Service.characteristics (cell σ a) |}.

(** The entry of [linkedServices] the serializer emits for the service at
    [a] while the mapping under construction has no key "subtype": the
    service's composite key, and the bare UUIDs of its linked services. *)
Definition linkedPresentation (σ : Store) (a : addr) : string * list string :=
  (Service.key (cell σ a),
   linked_UUID σ <$> Service.linkedServices (cell σ a)).

(** The composite key [UUID + (subtype || "")] read off an entry of a
    service's [linkedServices]: the key of a service, and the text
    "undefined" for a value that is no service and has neither property. *)
Definition link_key (σ : Store) (linked : addr + Other) : string :=
  match linked with
  | inl service => Service.key (cell σ service)
  | inr _ => "undefined"
  end.

(** A decimal digit: what the key of an array index starts with. *)
Definition is_digit (c : ascii) : bool :=
  let n := nat_of_ascii c in (48 <=? n) && (n <=? 57).

(** The model after the seven assignments that open [_configFromData]:
    the fields of the dictionary, the service list not yet replaced. *)
Definition configured (data : Dictionary.t) (this : PlatformAccessory.t)
    : PlatformAccessory.t :=
  {| displayName := Dictionary.displayName data;
     UUID := Dictionary.UUID data;
     category := Dictionary.category data;
     services := services this;
     reachable := false;
     context := Dictionary.context data;
     _associatedPlugin := Dictionary.plugin data;
     _associatedPlatform := Dictionary.platform data;
     _associatedHAPAccessory := _associatedHAPAccessory this |}.

(** The pairs of a source key and its target keys that the second loop of
    [_configFromData] visits for a dictionary. *)
Definition visited (data : Dictionary.t) : list (string * list string) :=
  match Dictionary.linkedServices data with
  | Some linkedServices =>
      Obj.for_in linkedServices (Dictionary.linkedServices_prototype data)
  | None => []
  end.

(** The service object at [a] was created: its address is below the
    next free one. *)
Definition allocated (σ : Store) (a : addr) : Prop := a < next σ.

(** What the duplicate check of [addService] has verified of a service
    list built by it: of two services with one UUID, the later one has a
    non-empty subtype, the earlier one has a subtype, and the two
    subtypes differ. *)
Definition registry_invariant (σ : Store) (l : list addr) : Prop :=
  ∀ i j a b, i < j → l !! i = Some a → l !! j = Some b →
    Service.UUID (cell σ a) = Service.UUID (cell σ b) →
    ∃ mine theirs,
      Service.subtype (cell σ b) = Some mine ∧ mine ≠ ""
      ∧ Service.subtype (cell σ a) = Some theirs ∧ theirs ≠ mine.

(** The collaborator, when one is attached, lists the model's services
    and has the model's reachability. *)
Definition mirrored (this : PlatformAccessory.t) : Prop :=
  match _associatedHAPAccessory this with
  | Some h => Accessory.services h = services this
              ∧ Accessory.reachable h = reachable this
  | None => True
  end.


(** The program a shell command names: its text up to the first blank. *)
Fixpoint first_word (s : string) : string :=
  match s with
  | EmptyString => EmptyString
  | String c s' => if Ascii.eqb c " " then EmptyString else String c (first_word s')
  end.

(** The commands a run executed, in order. *)
Definition executed (trace : list Prerequisites.Event) : list string :=
  omap (λ e, match e with Prerequisites.ExecSync c => Some c | _ => None end) trace.

(** ** Instances used to run the model *)

(** Modelled from the spec: a UUID-format validation to instantiate
    [isValid] with ([uuid.isValid] of hap-nodejs is outside this
    repository): hexadecimal digits in groups of 8-4-4-4-12, separated
    by hyphens. *)
Definition is_hex (c : ascii) : bool :=
  let n := nat_of_ascii c in
  ((48 <=? n) && (n <=? 57)) || ((65 <=? n) && (n <=? 70))
  || ((97 <=? n) && (n <=? 102)).

Fixpoint uuid_shape (i : nat) (s : string) : bool :=
  match s with
  | EmptyString => i =? 36
  | String c s' =>
      (if (i =? 8) || (i =? 13) || (i =? 18) || (i =? 23)
       then bool_decide (c = "-"%char) else is_hex c)
      && uuid_shape (S i) s'
  end.

Definition uuid_isValid (s : string) : bool := uuid_shape 0 s.

(** A store in which nothing was allocated yet. *)
Definition empty_store : Store := mkStore (λ _, Service.new None "" None) 0.

(** A model whose service list is [l]. *)
Definition accessory_with (l : list addr) : PlatformAccessory.t :=
  {| displayName := "Lamp";
     UUID := "9a8b7c6d-0000-4000-8000-0026bb765291";
     category := Accessory.OTHER;
     services := l;
     reachable := false;
     context := [];
     _associatedPlugin := None;
     _associatedPlatform := None;
     _associatedHAPAccessory := None |}.

(** The store holding the given services at addresses 0, 1, ... *)
Definition store_of (l : list Service.t) : Store :=
  fold_left (λ σ s, (alloc s σ).2) l empty_store.

(** A light service without a subtype, and a second one told apart by a
    subtype. *)
Definition light : Service.t := Service.new (Some "Light") "00000043-0000-1000-8000-0026BB765291" None.
Definition second_light : Service.t :=
  Service.new (Some "Second light") "00000043-0000-1000-8000-0026BB765291" (Some "second").

(** A light service with a subtype of its own. *)
Definition first_light : Service.t :=
  Service.new (Some "First light") "00000043-0000-1000-8000-0026BB765291" (Some "first").

(** Modelled from the spec: a service type of hap-nodejs (the light
    bulb), as a selector and as a constructor; the lookups read its
    identity and its [UUID] only. *)
Definition Lightbulb : Service.ctor :=
  Service.mkCtor 2 (Some "00000043-0000-1000-8000-0026BB765291") (λ args,
    {| Service.displayName := default None (args !! 0);
       Service.name := None;
       Service.UUID := "00000043-0000-1000-8000-0026BB765291";
       Service.subtype := default None (args !! 1);
       Service.characteristics := [];
       Service.linkedServices := [];
       Service.prototypes := [2; 0] |}).

(** A snapshot with stale references: the service "A" links to "B" and
    to a service "Zombie" that is gone, and an entry is left for a removed
    source "Ghost". *)
Definition stale_snapshot : Dictionary.t :=
  {| Dictionary.plugin := None;
     Dictionary.platform := None;
     Dictionary.displayName := "Lamp";
     Dictionary.UUID := "9a8b7c6d-0000-4000-8000-0026bb765291";
     Dictionary.category := Accessory.OTHER;
     Dictionary.context := [];
     Dictionary.linkedServices :=
       Some [("A", ["B"; "Zombie"]); ("Ghost", ["A"]); ("B", [])];
     Dictionary.linkedServices_prototype := None;
     Dictionary.services :=
       [ServicePresentation.mk (Some "a") "A" None [];
        ServicePresentation.mk (Some "b") "B" None []] |}.

(** A snapshot with one entry of [linkedServices]: the source key [key]
    with the target keys [targets], beside the services "A" and "B". *)
Definition snapshot_linking (key : string) (targets : list string)
    : Dictionary.t :=
  {| Dictionary.plugin := None;
     Dictionary.platform := None;
     Dictionary.displayName := "Lamp";
     Dictionary.UUID := "9a8b7c6d-0000-4000-8000-0026bb765291";
     Dictionary.category := Accessory.OTHER;
     Dictionary.context := [];
     Dictionary.linkedServices := Some [(key, targets)];
     Dictionary.linkedServices_prototype := None;
     Dictionary.services :=
       [ServicePresentation.mk (Some "a") "A" None [];
        ServicePresentation.mk (Some "b") "B" None []] |}.

(** The example of the spec: a service "A" without a subtype, linked to
    a service "B" without a subtype. *)
Definition service_A_linked_to (targets : list addr) : Service.t :=
  Service.set_linkedServices (inl <$> targets) (Service.new (Some "a") "A" None).
Definition service_B : Service.t := Service.new (Some "b") "B" None.

(** A linked service that carries a subtype. *)
Definition service_B_x : Service.t := Service.new (Some "b") "B" (Some "x").

(** Two services whose composite keys collide, "AB" + "" and "A" + "B",
    the first of them linked to a third service "C". *)
Definition service_AB_linked_to (targets : list addr) : Service.t :=
  Service.set_linkedServices (inl <$> targets) (Service.new (Some "ab") "AB" None).
Definition service_A_B : Service.t := Service.new (Some "a-b") "A" (Some "B").
Definition service_C : Service.t := Service.new (Some "c") "C" None.

(** A switch service linked to other services. *)
Definition switch_linked_to (targets : list addr) : Service.t :=
  Service.set_linkedServices (inl <$> targets)
    (Service.new (Some "Switch") "00000049-0000-1000-8000-0026BB765291" None).

(** * Properties *)

(** ** Construction *)

Lemma truthy_Some (s : string) : truthy (Some s) = true ↔ s ≠ "".
Proof.
  unfold truthy. destruct (decide (s = "")) as [->|Hne].
  - rewrite bool_decide_eq_true_2 by done. simpl. split; [discriminate | congruence].
  - rewrite bool_decide_eq_false_2 by done. by split.
Qed.

Lemma truthy_false (x : option string) :
  truthy x = false ↔ x = None ∨ x = Some "".
Proof.
  destruct x as [s|]; simpl.
  - destruct (decide (s = "")) as [->|Hne].
    + rewrite bool_decide_eq_true_2 by done. simpl. split; auto.
    + rewrite bool_decide_eq_false_2 by done. simpl.
      split; [discriminate | intros [?|?]; congruence].
  - split; auto.
Qed.

Lemma constructor_valid (isValid : string → bool) (dn u : string)
    (cat : option Category) (σ : Store) :
  dn ≠ "" → u ≠ "" → isValid u = true →
  ∃ m σ', constructor isValid (Some dn) (Some u) cat σ = Return (m, σ')
    ∧ displayName m = dn ∧ UUID m = u
    ∧ category m =
        match cat with
        | Some c => if bool_decide (c = 0%N) then Accessory.OTHER else c
        | None => Accessory.OTHER
        end
    ∧ services m = [next σ] ∧ reachable m = false
    ∧ _associatedHAPAccessory m = None
    ∧ cell σ' (next σ) =
        Service.setCharacteristic Characteristic.SerialNumber (VString "Default-SerialNumber")
          (Service.setCharacteristic Characteristic.Model (VString "Default-Model")
            (Service.setCharacteristic Characteristic.Manufacturer (VString "Default-Manufacturer")
              (Service.setCharacteristic Characteristic.Name (VString dn)
                (Service.construct Service.AccessoryInformation [])))).
Proof.
  intros Hdn Hu Hv. unfold constructor.
  destruct dn as [|c dn]; [done|]. destruct u as [|d u]; [done|].
  rewrite Hv. simpl negb. cbv iota.
  eexists _, _. split; [reflexivity|].
  repeat split; simpl.
  unfold mutate; simpl. rewrite !fn_lookup_alter. by rewrite fn_lookup_insert.
Qed.

Lemma constructor_invalid (isValid : string → bool) (dn u : option string)
    (cat : option Category) (σ : Store) :
  invalid_arguments isValid dn u →
  ∃ e, constructor isValid dn u cat σ = Throw e
       ∧ isInvalidArgumentError e = true.
Proof.
  intros Hinv. unfold constructor.
  destruct dn as [[|c dn]|]; try (by eexists; split).
  destruct u as [[|d u]|]; try (by eexists; split).
  destruct (isValid (String d u)) eqn:Hv; [|by eexists; split].
  exfalso. destruct Hinv as [H|[H|(s & [= <-] & H)]]; try discriminate.
  congruence.
Qed.

Lemma arguments_valid_or_invalid (isValid : string → bool)
    (dn u : option string) :
  invalid_arguments isValid dn u
  ∨ ∃ d s, dn = Some d ∧ u = Some s ∧ d ≠ "" ∧ s ≠ "" ∧ isValid s = true.
Proof.
  destruct dn as [[|c dn]|]; try (left; by left).
  destruct u as [[|d u]|]; try (left; right; by left).
  destruct (isValid (String d u)) eqn:Hv.
  - right. by eexists _, _.
  - left. right. right. by eexists.
Qed.

(** C4. Construction throws exactly when the display name is empty, the
    identifier is empty, or the identifier fails the UUID-format
    validation; what it throws then is an invalid-argument error and no
    model is produced, and on every other input it returns a model. *)
Theorem constructor_throws_exactly_on_invalid_arguments
    (isValid : string → bool) (dn u : option string)
    (cat : option Category) (σ : Store) :
  (invalid_arguments isValid dn u ↔
     ∃ e, constructor isValid dn u cat σ = Throw e
          ∧ isInvalidArgumentError e = true)
  ∧ (¬ invalid_arguments isValid dn u ↔
     ∃ m σ', constructor isValid dn u cat σ = Return (m, σ')).
Proof.
  destruct (arguments_valid_or_invalid isValid dn u)
    as [Hinv|(d & s & -> & -> & Hd & Hs & Hv)].
  - destruct (constructor_invalid isValid dn u cat σ Hinv) as (e & He & Hk).
    split; split; try done.
    + by exists e.
    + intros (m & σ' & Hr). congruence.
  - destruct (constructor_valid isValid d s cat σ Hd Hs Hv) as (m & σ' & Hr & _).
    assert (Hok : ¬ invalid_arguments isValid (Some d) (Some s)).
    { intros [H|[H|(s' & [= <-] & H)]].
      - apply truthy_false in H as [?|[= ?]]; done.
      - apply truthy_false in H as [?|[= ?]]; done.
      - congruence. }
    split; split; try done.
    + intros (e & He & _). congruence.
    + by exists m, σ'.
Qed.

(** C5. For valid arguments the constructor returns a model with exactly
    one service, the accessory-information service, on which the name,
    manufacturer, model and serial-number characteristics are set;
    [reachable] is false and the category is the one given, or OTHER when
    it is omitted. *)
Theorem constructor_fresh_model (isValid : string → bool) (dn u : string)
    (cat : option Category) (σ : Store) :
  dn ≠ "" → u ≠ "" → isValid u = true →
  ∃ m σ' info,
    constructor isValid (Some dn) (Some u) cat σ = Return (m, σ')
    ∧ services m = [info]
    ∧ length (services m) = 1
    ∧ reachable m = false
    ∧ Service.UUID (cell σ' info) = Service.AccessoryInformation_UUID
    ∧ Service.instanceof (cell σ' info) Service.AccessoryInformation = true
    ∧ Service.getValue Characteristic.Name (cell σ' info) = Some (VString dn)
    ∧ Service.getValue Characteristic.Manufacturer (cell σ' info)
      = Some (VString "Default-Manufacturer")
    ∧ Service.getValue Characteristic.Model (cell σ' info)
      = Some (VString "Default-Model")
    ∧ Service.getValue Characteristic.SerialNumber (cell σ' info)
      = Some (VString "Default-SerialNumber")
    ∧ category m = match cat with
                   | None => Accessory.OTHER
                   | Some c => if bool_decide (c = 0%N) then Accessory.OTHER else c
                   end.
Proof.
  intros Hdn Hu Hv.
  destruct (constructor_valid isValid dn u cat σ Hdn Hu Hv)
    as (m & σ' & Hr & _ & _ & Hcat & Hs & Hreach & _ & Hcell).
  exists m, σ', (next σ). rewrite Hs, Hcell, Hcat.
  repeat split; try done.
Qed.

Lemma constructor_fresh_model_witness :
  ∃ m σ' info,
    constructor uuid_isValid (Some "Lamp")
      (Some "9a8b7c6d-0000-4000-8000-0026bb765291") None empty_store
    = Return (m, σ')
    ∧ services m = [info]
    ∧ length (services m) = 1
    ∧ reachable m = false
    ∧ Service.UUID (cell σ' info) = Service.AccessoryInformation_UUID
    ∧ Service.instanceof (cell σ' info) Service.AccessoryInformation = true
    ∧ Service.getValue Characteristic.Name (cell σ' info) = Some (VString "Lamp")
    ∧ Service.getValue Characteristic.Manufacturer (cell σ' info)
      = Some (VString "Default-Manufacturer")
    ∧ Service.getValue Characteristic.Model (cell σ' info)
      = Some (VString "Default-Model")
    ∧ Service.getValue Characteristic.SerialNumber (cell σ' info)
      = Some (VString "Default-SerialNumber")
    ∧ category m = Accessory.OTHER.
Proof.
  apply (constructor_fresh_model uuid_isValid "Lamp"
           "9a8b7c6d-0000-4000-8000-0026bb765291" None empty_store);
    [discriminate | discriminate | reflexivity].
Defined.

(** ** The service registry: addService *)

Section AddService.
Variable σ : Store.
Variable service : Service.t.

Lemma addService_check_cons (a : addr) (rest : list addr) :
  Service.UUID (cell σ a) ≠ Service.UUID service →
  addService_check σ service (a :: rest) = addService_check σ service rest.
Proof. intros Hne. simpl. by rewrite bool_decide_eq_false_2. Qed.

(** A new service without a subtype is refused at the first existing
    service that has its UUID. *)
Lemma addService_check_without_subtype (l : list addr) (existing : addr) :
  existing ∈ l →
  Service.UUID (cell σ existing) = Service.UUID service →
  truthy (Service.subtype service) = false →
  addService_check σ service l = Some (DuplicateUUID (Service.UUID service)).
Proof.
  intros Hin Hu Hst. induction l as [|a rest IH]; [by apply elem_of_nil in Hin|].
  destruct (decide (Service.UUID (cell σ a) = Service.UUID service)) as [Heq|Hne].
  - simpl. rewrite bool_decide_eq_true_2 by done. by rewrite Hst, Heq.
  - rewrite addService_check_cons by done. apply IH.
    apply elem_of_cons in Hin as [->|Hin]; [congruence | done].
Qed.

(** An existing service with the new service's UUID and no subtype makes
    the loop throw, whatever the new service's subtype. *)
Lemma addService_check_absent_subtype (l : list addr) (existing : addr) :
  existing ∈ l →
  Service.UUID (cell σ existing) = Service.UUID service →
  Service.subtype (cell σ existing) = None →
  ∃ e, addService_check σ service l = Some e.
Proof.
  intros Hin Hu Hnone. induction l as [|a rest IH]; [by apply elem_of_nil in Hin|].
  destruct (decide (Service.UUID (cell σ a) = Service.UUID service)) as [Heq|Hne].
  - simpl. rewrite bool_decide_eq_true_2 by done.
    destruct (truthy (Service.subtype service)) eqn:Hst; simpl; [|by eexists].
    destruct (Service.subtype service) as [mine|]; simpl; [|by eexists].
    destruct (Service.subtype (cell σ a)) as [theirs|] eqn:Ha; simpl; [|by eexists].
    case_bool_decide; [by eexists|].
    apply IH. apply elem_of_cons in Hin as [->|Hin]; [congruence | done].
  - rewrite addService_check_cons by done. apply IH.
    apply elem_of_cons in Hin as [->|Hin]; [congruence | done].
Qed.

(** The loop lets a service with a subtype through when every existing
    service with its UUID has a subtype too, and a different one. *)
Lemma addService_check_distinct (l : list addr) (mine : string) :
  Service.subtype service = Some mine → mine ≠ "" →
  (∀ a, a ∈ l → Service.UUID (cell σ a) = Service.UUID service →
        ∃ theirs, Service.subtype (cell σ a) = Some theirs ∧ theirs ≠ mine) →
  addService_check σ service l = None.
Proof.
  intros Hst Hne Hall. induction l as [|a rest IH]; [done|].
  simpl. case_bool_decide as Hu.
  - destruct (Hall a) as (theirs & Ha & Hdiff); [by left | done |].
    rewrite Hst, Ha. simpl. rewrite (bool_decide_eq_false_2 (mine = "")) by done.
    simpl. rewrite bool_decide_eq_false_2 by congruence.
    apply IH. intros b Hb. apply Hall. by right.
  - apply IH. intros b Hb. apply Hall. by right.
Qed.
End AddService.

(** C10. When the model already holds a service with the new service's
    UUID and no subtype, [addService] throws and appends nothing, also
    when the new service carries a subtype of its own. *)
Theorem addService_throws_on_existing_without_subtype
    (arg : serviceArgument) (this : PlatformAccessory.t) (σ : Store)
    (existing : addr) :
  let service := (addService_argument arg σ).1 in
  let σ1 := (addService_argument arg σ).2 in
  existing ∈ services this →
  Service.UUID (cell σ1 existing) = Service.UUID (cell σ1 service) →
  Service.subtype (cell σ1 existing) = None →
  ∃ e, addService arg this σ = (Throw e, this, σ1).
Proof.
  intros service σ1 Hin Hu Hnone. unfold addService.
  subst service σ1. destruct (addService_argument arg σ) as [service σ1].
  simpl in *.
  destruct (addService_check_absent_subtype σ1 (cell σ1 service)
              (services this) existing Hin Hu Hnone) as [e ->].
  by exists e.
Qed.

Lemma addService_throws_on_existing_without_subtype_witness :
  ∃ e, addService (Instance 1) (accessory_with [0]) (store_of [light; second_light])
       = (Throw e, accessory_with [0], store_of [light; second_light]).
Proof.
  apply (addService_throws_on_existing_without_subtype (Instance 1)
           (accessory_with [0]) (store_of [light; second_light]) 0);
    [by left | reflexivity | reflexivity].
Defined.

(** C3, at the input where the code leaves it: the model holds a light
    service without a subtype; adding a second light service whose
    subtype "second" differs from every existing one throws a TypeError
    and the service list keeps its length. *)
Theorem addService_distinct_subtype_throws_TypeError :
  let σ := store_of [light; second_light] in
  Service.UUID (cell σ 0) = Service.UUID (cell σ 1)
  ∧ Service.subtype (cell σ 0) = None
  ∧ Service.subtype (cell σ 1) = Some "second"
  ∧ addService (Instance 0) (accessory_with []) σ
    = (Return 0, accessory_with [0], σ)
  ∧ addService (Instance 1) (accessory_with [0]) σ
    = (Throw TypeError, accessory_with [0], σ).
Proof. repeat split. Qed.

(** What the duplicate check does guarantee: a second service with an
    existing UUID and no subtype is refused with the duplicate-identity
    error, and the model is left as it was. *)
Lemma addService_duplicate_without_subtype (service : addr)
    (this : PlatformAccessory.t) (σ : Store) (existing : addr) :
  existing ∈ services this →
  Service.UUID (cell σ existing) = Service.UUID (cell σ service) →
  truthy (Service.subtype (cell σ service)) = false →
  ∃ e, addService (Instance service) this σ = (Throw e, this, σ)
       ∧ isDuplicateIdentityError e = true.
Proof.
  intros Hin Hu Hst. unfold addService. simpl.
  rewrite (addService_check_without_subtype σ _ _ existing Hin Hu Hst).
  by eexists.
Qed.

Lemma addService_duplicate_without_subtype_witness :
  ∃ e, addService (Instance 0) (accessory_with [0]) (store_of [light])
       = (Throw e, accessory_with [0], store_of [light])
       ∧ isDuplicateIdentityError e = true.
Proof.
  apply (addService_duplicate_without_subtype 0 (accessory_with [0])
           (store_of [light]) 0); [by left | reflexivity | reflexivity].
Defined.

(** And a service whose subtype differs from the subtypes of the existing
    services with its UUID is appended, provided each of those has a
    subtype. *)
Lemma addService_distinct_subtype (service : addr)
    (this : PlatformAccessory.t) (σ : Store) (mine : string) :
  Service.subtype (cell σ service) = Some mine → mine ≠ "" →
  (∀ a, a ∈ services this →
        Service.UUID (cell σ a) = Service.UUID (cell σ service) →
        ∃ theirs, Service.subtype (cell σ a) = Some theirs ∧ theirs ≠ mine) →
  ∃ this', addService (Instance service) this σ = (Return service, this', σ)
           ∧ services this' = services this ++ [service]
           ∧ length (services this') = S (length (services this)).
Proof.
  intros Hst Hne Hall. unfold addService. simpl.
  rewrite (addService_check_distinct σ _ _ mine Hst Hne Hall).
  eexists. split; [reflexivity|].
  assert (Hs : ∀ l h m, services (set_associatedHAPAccessory h (set_services l m)) = l)
    by done.
  destruct (_associatedHAPAccessory this); simpl; rewrite ?length_app; simpl;
    split; (done || lia).
Qed.

Lemma addService_distinct_subtype_witness :
  ∃ this', addService (Instance 1) (accessory_with [0])
             (store_of [first_light; second_light])
           = (Return 1, this', store_of [first_light; second_light])
           ∧ services this' = [0] ++ [1]
           ∧ length (services this') = 2.
Proof.
  apply (addService_distinct_subtype 1 (accessory_with [0])
           (store_of [first_light; second_light]) "second");
    [reflexivity | discriminate |].
  intros a Ha _. apply list_elem_of_singleton in Ha as ->.
  exists "first". split; [reflexivity | discriminate].
Defined.

(** ** Reachability *)

(** C8. After [updateReachability v] the model's [reachable] is [v]; an
    attached collaborator stays attached and its reachability is [v] as
    well; without a collaborator only the model's own field changes. *)
Theorem updateReachability_mirrors (v : bool) (this : PlatformAccessory.t) :
  reachable (updateReachability v this) = v
  ∧ match _associatedHAPAccessory this with
    | Some h =>
        _associatedHAPAccessory (updateReachability v this)
        = Some (Accessory.updateReachability v h)
        ∧ Accessory.reachable (Accessory.updateReachability v h)
          = reachable (updateReachability v this)
    | None => updateReachability v this = set_reachable v this
    end
  ∧ services (updateReachability v this) = services this.
Proof.
  unfold updateReachability. simpl.
  destruct (_associatedHAPAccessory this) as [h|]; simpl; done.
Qed.

(** A collaborator starts out with the model's services and
    reachability, so the two agree from the attachment on. *)
Lemma _prepareAssociatedHAPAccessory_agrees (this : PlatformAccessory.t) :
  ∃ h, _associatedHAPAccessory (_prepareAssociatedHAPAccessory this) = Some h
       ∧ Accessory.reachable h = reachable (_prepareAssociatedHAPAccessory this)
       ∧ Accessory.services h = services (_prepareAssociatedHAPAccessory this).
Proof. by eexists. Qed.

(** ** Lookup *)

Lemma first_passing_cons_skip (test : addr → bool) (a : addr)
    (l : list addr) (r : option addr) :
  test a = false → first_passing test l r → first_passing test (a :: l) r.
Proof.
  intros Ha. destruct r as [x|]; simpl.
  - intros (before & after & -> & Hx & Hb).
    exists (a :: before), after. split; [done|]. split; [done|].
    intros b [->|Hin]%elem_of_cons; auto.
  - intros Hl b [->|Hin]%elem_of_cons; auto.
Qed.

Lemma getService_loop_first (σ : Store) (name : selector) (l : list addr) :
  first_passing (λ a, selects name (cell σ a)) l (getService_loop σ name l).
Proof.
  induction l as [|a rest IH]; simpl.
  - intros b Hb. by apply elem_of_nil in Hb.
  - destruct (selects name (cell σ a)) eqn:Ha.
    + exists [], rest. split; [done|]. split; [done|].
      intros b Hb. by apply elem_of_nil in Hb.
    + by apply first_passing_cons_skip.
Qed.

Lemma getServiceByUUIDAndSubType_loop_first (σ : Store) (name : selector)
    (subtype : option string) (l : list addr) :
  first_passing
    (λ a, selects name (cell σ a)
          && bool_decide (Service.subtype (cell σ a) = subtype))
    l (getServiceByUUIDAndSubType_loop σ name subtype l).
Proof.
  induction l as [|a rest IH]; simpl.
  - intros b Hb. by apply elem_of_nil in Hb.
  - destruct (selects name (cell σ a)
              && bool_decide (Service.subtype (cell σ a) = subtype)) eqn:Ha.
    + exists [], rest. split; [done|]. split; [done|].
      intros b Hb. by apply elem_of_nil in Hb.
    + by apply first_passing_cons_skip.
Qed.

(** C9. [getService] returns the first service, in insertion order, that
    the selector matches, and [getServiceByUUIDAndSubType] the first that
    the selector matches and whose subtype is exactly the given one; each
    returns nothing when no service qualifies. *)
Theorem lookups_return_first_match (name : selector)
    (subtype : option string) (this : PlatformAccessory.t) (σ : Store) :
  first_passing (λ a, selects name (cell σ a)) (services this)
    (getService name this σ)
  ∧ first_passing
      (λ a, selects name (cell σ a)
            && bool_decide (Service.subtype (cell σ a) = subtype))
      (services this) (getServiceByUUIDAndSubType name subtype this σ).
Proof.
  split.
  - apply getService_loop_first.
  - apply getServiceByUUIDAndSubType_loop_first.
Qed.

(** ** The service registry: removeService *)

(** The key a [for ... in] loop binds is never the empty string, so the
    test [if (targetServiceIndex)] passes at every position, the first
    included. *)
Lemma index_key_truthy (i : nat) : truthy (Some (index_key i)) = true.
Proof.
  apply truthy_Some. unfold index_key. intros Hnil.
  assert (Hd : Nat.to_uint i = Decimal.Nil) by (by destruct (Nat.to_uint i)).
  pose proof (DecimalNat.Unsigned.of_to i) as Hback.
  rewrite Hd in Hback. simpl in Hback. subst i. discriminate Hd.
Qed.

Lemma removeService_find_spec (service : addr) (l : list addr) (i : nat) :
  match removeService_find service l i with
  | Some (j, k) =>
      ∃ before after, l = before ++ service :: after ∧ (service ∉ before)
                      ∧ j = i + length before ∧ k = index_key j
  | None => service ∉ l
  end.
Proof.
  revert i. induction l as [|x rest IH]; intros i; simpl.
  - apply not_elem_of_nil.
  - case_bool_decide as Hx.
    + subst x. exists [], rest. simpl. split; [done|].
      split; [apply not_elem_of_nil|]. split; [lia | done].
    + specialize (IH (S i)).
      destruct (removeService_find service rest (S i)) as [[j k]|].
      * destruct IH as (before & after & -> & Hnot & -> & ->).
        exists (x :: before), after. simpl. split; [done|].
        split; [|split; [lia | f_equal; lia]].
        intros [->|Hin]%elem_of_cons; [done | by apply Hnot].
      * intros [->|Hin]%elem_of_cons; [done | by apply IH].
Qed.

Lemma services_set_associatedHAPAccessory (h : option Accessory.t)
    (this : PlatformAccessory.t) :
  services (set_associatedHAPAccessory h this) = services this.
Proof. done. Qed.

Lemma removeService_absent (service : addr) (this : PlatformAccessory.t) :
  service ∉ services this → removeService service this = this.
Proof.
  intros Hnot. unfold removeService.
  pose proof (removeService_find_spec service (services this) 0) as Hfind.
  destruct (removeService_find service (services this) 0) as [[j k]|]; [|done].
  destruct Hfind as (before & after & Heq & _).
  exfalso. apply Hnot. rewrite Heq. apply elem_of_app. right. by left.
Qed.

Lemma removeService_present (service : addr) (this : PlatformAccessory.t) :
  service ∈ services this →
  ∃ before after, services this = before ++ service :: after
                  ∧ (service ∉ before)
                  ∧ services (removeService service this) = before ++ after.
Proof.
  intros Hin. unfold removeService.
  pose proof (removeService_find_spec service (services this) 0) as Hfind.
  destruct (removeService_find service (services this) 0) as [[j k]|]; [|done].
  destruct Hfind as (before & after & Heq & Hnot & -> & ->).
  exists before, after. split; [done|]. split; [done|].
  rewrite index_key_truthy. simpl.
  assert (Hdel : delete (length before) (services this) = before ++ after)
    by (rewrite Heq; apply delete_middle).
  destruct (_associatedHAPAccessory this); simpl; exact Hdel.
Qed.





(** ** Reading servicesMap *)

Lemma servicesMap_get_own (σ : Store) (m : ServicesMap) (k : string) (a : addr) :
  own m !! k = Some a → servicesMap_get σ m k = Resolves a.
Proof. unfold servicesMap_get. by intros ->. Qed.

Lemma text_not_Resolves (x : option string) (a : addr) :
  Service.text x ≠ Resolves a.
Proof. unfold Service.text. by destruct (truthy x). Qed.

Lemma property_not_Resolves (a b : addr) (s : Service.t) (k : string) :
  Service.property a s k ≠ Some (Resolves b).
Proof.
  unfold Service.property.
  repeat case_bool_decide; try done; intros [= Htext]; by apply text_not_Resolves in Htext.
Qed.

Lemma Object_prototype_Resolves (p : Resolution) (k : string) (a : addr) :
  Object_prototype p k = Resolves a → p = Resolves a.
Proof. unfold Object_prototype. by repeat case_bool_decide. Qed.

(** A lookup finds a service only as an own entry or as the prototype. *)
Lemma servicesMap_get_Resolves (σ : Store) (m : ServicesMap) (k : string)
    (a : addr) :
  servicesMap_get σ m k = Resolves a →
  own m !! k = Some a ∨ prototype m = Some a.
Proof.
  unfold servicesMap_get. destruct (own m !! k) as [b|]; [intros [= ->]; by left|].
  destruct (prototype m) as [s|].
  - destruct (Service.property s (cell σ s) k) as [found|] eqn:Hp.
    + intros ->. by apply property_not_Resolves in Hp.
    + intros [= ->]%Object_prototype_Resolves. by right.
  - by intros ?%Object_prototype_Resolves.
Qed.

Lemma property_unlinked (a : addr) (s s' : Service.t) (k : string) :
  unlinked s = unlinked s' → Service.property a s k = Service.property a s' k.
Proof.
  intros [= Hdn Hn Hu Hst _ _]. unfold Service.property.
  by rewrite Hdn, Hn, Hu, Hst.
Qed.

(** What a lookup finds does not depend on the links of the services. *)
Lemma servicesMap_get_unlinked (σ1 σ2 : Store) (m : ServicesMap) (k : string) :
  (∀ a, unlinked (cell σ1 a) = unlinked (cell σ2 a)) →
  servicesMap_get σ1 m k = servicesMap_get σ2 m k.
Proof.
  intros Hun. unfold servicesMap_get. destruct (own m !! k); [done|].
  destruct (prototype m) as [s|]; [|done].
  by rewrite (property_unlinked s _ _ k (Hun s)).
Qed.

Lemma Object_prototype_ordinary (p : Resolution) (k : string) :
  k ∉ Object_prototype_names → Object_prototype p k = Unresolved.
Proof.
  unfold Object_prototype_names, Object_prototype.
  intros [Hne Hnot]%not_elem_of_cons.
  by rewrite !bool_decide_eq_false_2.
Qed.

(** A lookup in a map whose prototype was never replaced: an own entry,
    or a property of [Object.prototype]. *)
Lemma servicesMap_get_plain (σ : Store) (m : ServicesMap) (k : string) :
  prototype m = None →
  servicesMap_get σ m k
  = match own m !! k with
    | Some a => Resolves a
    | None => Object_prototype (ResolvesOther ObjectPrototype) k
    end.
Proof. unfold servicesMap_get. by intros ->. Qed.

Lemma servicesMap_get_plain_ordinary (σ : Store) (m : ServicesMap) (k : string) :
  prototype m = None →
  (k ∈ Object_prototype_names → is_Some (own m !! k)) →
  servicesMap_get σ m k
  = match own m !! k with Some a => Resolves a | None => Unresolved end.
Proof.
  intros Hplain Hk. rewrite servicesMap_get_plain by done.
  destruct (own m !! k) eqn:Hown; [done|].
  apply Object_prototype_ordinary. intros Hin.
  destruct (Hk Hin) as [? ?]. congruence.
Qed.

(** *** Keys that spell an array index, and single characters *)

Lemma index_key_head (i : nat) :
  ∃ c rest, index_key i = String c rest ∧ is_digit c = true.
Proof.
  unfold index_key. destruct (Nat.to_uint i) eqn:Hd;
    try (eexists _, _; split; reflexivity).
  pose proof (DecimalNat.Unsigned.of_to i) as Hback.
  rewrite Hd in Hback. simpl in Hback. subst i. discriminate Hd.
Qed.

Lemma digit_key_ordinary (c : ascii) (rest : string) :
  is_digit c = true →
  (String c rest ∉ Object_prototype_names)
  ∧ ∀ a s, Service.property a s (String c rest) = None.
Proof.
  intros Hc.
  assert (Hne : ∀ d tail, is_digit d = false → String c rest ≠ String d tail).
  { intros d tail Hd [= -> _]. congruence. }
  split.
  - unfold Object_prototype_names, Object_prototype_functions.
    rewrite !not_elem_of_cons.
    repeat split; try (apply Hne; reflexivity). apply not_elem_of_nil.
  - intros a s. unfold Service.property.
    rewrite !bool_decide_eq_false_2; [done|..]; try (apply Hne; reflexivity).
    unfold Service.methods. rewrite !not_elem_of_cons.
    repeat split; try (apply Hne; reflexivity). apply not_elem_of_nil.
Qed.

Lemma index_key_ordinary (i : nat) :
  (index_key i ∉ Object_prototype_names)
  ∧ ∀ a s, Service.property a s (index_key i) = None.
Proof.
  destruct (index_key_head i) as (c & rest & -> & Hc).
  by apply digit_key_ordinary.
Qed.

(** The key of an array index finds an own entry or nothing, whatever
    the prototype of the map. *)
Lemma servicesMap_get_index_key (σ : Store) (m : ServicesMap) (i : nat) :
  servicesMap_get σ m (index_key i)
  = match own m !! index_key i with Some a => Resolves a | None => Unresolved end.
Proof.
  destruct (index_key_ordinary i) as [Hnames Hprop].
  unfold servicesMap_get. destruct (own m !! index_key i); [done|].
  destruct (prototype m) as [s|].
  - rewrite Hprop. by apply Object_prototype_ordinary.
  - by apply Object_prototype_ordinary.
Qed.

Lemma characters_ordinary (text k : string) :
  k ∈ characters text → k ∉ Object_prototype_names.
Proof.
  unfold characters. intros (c & -> & _)%list_elem_of_fmap.
  unfold Object_prototype_names, Object_prototype_functions.
  rewrite !not_elem_of_cons.
  repeat split; try congruence. apply not_elem_of_nil.
Qed.

(** What the loops visit beyond the own entries of [linkedServices]: keys
    of array indices, with single characters under them. *)
Lemma elem_of_for_in (o : Obj.t (list string)) (p : option (list string))
    (entry : string * list string) :
  entry ∈ Obj.for_in o p →
  entry ∈ o
  ∨ ∃ i text, entry = (index_key i, characters text) ∧ index_key i ∉ o.*1.
Proof.
  unfold Obj.for_in. intros [Hown|Hin]%elem_of_app; [by left|].
  destruct p as [array|]; [|by apply elem_of_nil in Hin].
  apply list_elem_of_filter in Hin as [Hnot Hin].
  apply elem_of_lookup_imap in Hin as (i & text & -> & _).
  right. by exists i, text.
Qed.

Lemma elem_of_visited (data : Dictionary.t) (entry : string * list string) :
  entry ∈ visited data →
  (∃ entries, Dictionary.linkedServices data = Some entries ∧ entry ∈ entries)
  ∨ ∃ i text, entry = (index_key i, characters text).
Proof.
  unfold visited. destruct (Dictionary.linkedServices data) as [entries|];
    [|by intros ?%elem_of_nil].
  intros [Hown|(i & text & -> & _)]%elem_of_for_in.
  - left. by exists entries.
  - right. by exists i, text.
Qed.

Lemma _configFromData_linkedServices_visited (data : Dictionary.t)
    (m : ServicesMap) (σ : Store) :
  _configFromData_linkedServices data m σ
  = _configFromData_links m (visited data) σ.
Proof.
  unfold _configFromData_linkedServices, visited.
  by destruct (Dictionary.linkedServices data).
Qed.

(** ** The deserializer *)

Lemma _configFromData_service_unfold (acc : list addr)
    (m : ServicesMap) (σ : Store) (sp : ServicePresentation.t) :
  ∃ σ1, _configFromData_service (acc, m, σ) sp
        = (acc ++ [next σ], servicesMap_set (presentation_key sp) (next σ) m, σ1)
    ∧ next σ1 = S (next σ)
    ∧ cell σ1 (next σ) = reconstructed sp
    ∧ ∀ a, a ≠ next σ → cell σ1 a = cell σ a.
Proof.
  eexists. split; [reflexivity|]. simpl. split; [done|]. split.
  - by rewrite fn_lookup_alter, fn_lookup_insert.
  - intros a Ha. rewrite fn_lookup_alter_ne by done.
    by rewrite fn_lookup_insert_ne.
Qed.

Lemma own_servicesMap_set (k k' : string) (a : addr) (m : ServicesMap) :
  own (servicesMap_set k a m) !! k'
  = if bool_decide (k = k' ∧ k ≠ "__proto__") then Some a else own m !! k'.
Proof.
  unfold servicesMap_set. destruct (decide (k = "__proto__")) as [->|Hne].
  - rewrite (bool_decide_eq_true_2 ("__proto__" = "__proto__")) by done.
    rewrite bool_decide_eq_false_2 by (by intros [_ ?]). done.
  - rewrite (bool_decide_eq_false_2 (k = "__proto__")) by done. simpl.
    destruct (decide (k = k')) as [->|Hkk].
    + rewrite bool_decide_eq_true_2 by done. apply lookup_insert_eq.
    + rewrite bool_decide_eq_false_2 by (by intros [? _]).
      by apply lookup_insert_ne.
Qed.

Lemma prototype_servicesMap_set (k : string) (a : addr) (m : ServicesMap) :
  prototype (servicesMap_set k a m)
  = if bool_decide (k = "__proto__") then Some a else prototype m.
Proof. unfold servicesMap_set. by case_bool_decide. Qed.

Lemma _configFromData_services_loop (sps : list ServicePresentation.t) :
  ∀ (acc : list addr) (m : ServicesMap) (σ : Store),
  ∃ m' σ',
    fold_left _configFromData_service sps (acc, m, σ)
    = (acc ++ seq (next σ) (length sps), m', σ')
    ∧ next σ' = next σ + length sps
    ∧ (∀ a, a < next σ → cell σ' a = cell σ a)
    ∧ (∀ i sp, sps !! i = Some sp → cell σ' (next σ + i) = reconstructed sp)
    ∧ (∀ k, (∀ sp, sp ∈ sps → presentation_key sp ≠ k) →
            own m' !! k = own m !! k)
    ∧ own m' !! "__proto__" = own m !! "__proto__"
    ∧ (∀ k a, own m' !! k = Some a →
         own m !! k = Some a
         ∨ ∃ i sp, sps !! i = Some sp ∧ presentation_key sp = k
                   ∧ a = next σ + i)
    ∧ (∀ i sp, sps !! i = Some sp → presentation_key sp ≠ "__proto__" →
         (∀ j sp', i < j → sps !! j = Some sp' →
                   presentation_key sp' ≠ presentation_key sp) →
         own m' !! presentation_key sp = Some (next σ + i))
    ∧ (∀ k, is_Some (own m !! k) → is_Some (own m' !! k))
    ∧ (∀ sp, sp ∈ sps → presentation_key sp ≠ "__proto__" →
             is_Some (own m' !! presentation_key sp))
    ∧ (∀ a, prototype m' = Some a →
         prototype m = Some a
         ∨ ∃ i sp, sps !! i = Some sp ∧ presentation_key sp = "__proto__"
                   ∧ a = next σ + i)
    ∧ ((∀ sp, sp ∈ sps → presentation_key sp ≠ "__proto__") →
       prototype m' = prototype m).
Proof.
  induction sps as [|sp0 rest IH]; intros acc m σ.
  - exists m, σ. simpl. rewrite app_nil_r.
    repeat split; try done; try lia.
    + intros k a Ha. by left.
    + intros sp Hsp. by apply elem_of_nil in Hsp.
    + intros a Ha. by left.
  - destruct (_configFromData_service_unfold acc m σ sp0)
      as (σ1 & Hstep & Hnext1 & Hnew & Hold).
    set (m1 := servicesMap_set (presentation_key sp0) (next σ) m) in *.
    destruct (IH (acc ++ [next σ]) m1 σ1)
      as (m' & σ' & Hfold & Hnext & Hframe & Hcells & Hmiss & Hpown & Hhit
          & Hlast & Hmono & Hsome & Hproto & Hplain).
    exists m', σ'. cbn [fold_left]. rewrite Hstep, Hfold, Hnext1.
    split; [by rewrite <- app_assoc|].
    split; [simpl; lia|].
    split.
    { intros a Ha. rewrite Hframe by lia. apply Hold. lia. }
    split.
    { intros [|i] sp Hsp; simpl in Hsp.
      - injection Hsp as <-. rewrite Nat.add_0_r, Hframe by lia. done.
      - rewrite <- (Hcells i sp Hsp). f_equal. lia. }
    split.
    { intros k Hk. rewrite Hmiss.
      - unfold m1. rewrite own_servicesMap_set.
        rewrite bool_decide_eq_false_2; [done|].
        intros [Heq _]. revert Heq. apply Hk. by left.
      - intros sp Hsp. apply Hk. by right. }
    split.
    { rewrite Hpown. unfold m1. rewrite own_servicesMap_set.
      rewrite bool_decide_eq_false_2; [done|]. by intros [-> ?]. }
    split.
    { intros k a Ha. destruct (Hhit k a Ha) as [Hm|(i & sp & Hsp & Hkey & ->)].
      - unfold m1 in Hm. rewrite own_servicesMap_set in Hm.
        case_bool_decide as Hk.
        + destruct Hk as [<- _]. injection Hm as <-.
          right. exists 0, sp0. split; [done|]. split; [done | lia].
        + by left.
      - right. exists (S i), sp. split; [done|]. split; [done | lia]. }
    split.
    { intros [|i] sp Hsp Hne Hlater; simpl in Hsp.
      + injection Hsp as <-. rewrite Hmiss.
        * unfold m1. rewrite own_servicesMap_set.
          rewrite bool_decide_eq_true_2 by done. f_equal. lia.
        * intros sp [j Hj]%list_elem_of_lookup.
          apply (Hlater (S j) sp); [lia | done].
      + rewrite (Hlast i sp Hsp Hne).
        * f_equal. lia.
        * intros j sp' Hij Hj. apply (Hlater (S j) sp'); [lia | done]. }
    assert (Hins : ∀ k, is_Some (own m !! k)
                        ∨ (k = presentation_key sp0 ∧ k ≠ "__proto__") →
                        is_Some (own m' !! k)).
    { intros k Hk. apply Hmono. unfold m1. rewrite own_servicesMap_set.
      case_bool_decide as Hdec; [by eexists|].
      destruct Hk as [Hk|[-> Hne]]; [done|]. by destruct Hdec. }
    split.
    { intros k Hk. apply Hins. by left. }
    split.
    { intros sp [->|Hsp]%elem_of_cons Hne; [|by apply Hsome].
      apply Hins. by right. }
    split.
    { intros a Ha. destruct (Hproto a Ha) as [Hm|(i & sp & Hsp & Hkey & ->)].
      - unfold m1 in Hm. rewrite prototype_servicesMap_set in Hm.
        case_bool_decide as Hk.
        + injection Hm as <-. right. exists 0, sp0.
          split; [done|]. split; [done | lia].
        + by left.
      - right. exists (S i), sp. split; [done|]. split; [done | lia]. }
    intros Hall. rewrite Hplain.
    + unfold m1. rewrite prototype_servicesMap_set.
      rewrite bool_decide_eq_false_2; [done|]. apply Hall. by left.
    + intros sp Hsp. apply Hall. by right.
Qed.

Lemma unlinked_addLinkedService (target : addr + Other) (s : Service.t) :
  unlinked (Service.addLinkedService target s) = unlinked s.
Proof. unfold Service.addLinkedService. by case_bool_decide. Qed.

Lemma elem_of_addLinkedService (target x : addr + Other) (s : Service.t) :
  x ∈ Service.linkedServices (Service.addLinkedService target s)
  ↔ x ∈ Service.linkedServices s ∨ x = target.
Proof.
  unfold Service.addLinkedService. case_bool_decide as Hin; simpl.
  - split; [by left | by intros [? | ->]].
  - rewrite elem_of_app, list_elem_of_singleton. done.
Qed.

Lemma unlinked_mutate_addLinkedService (source : addr) (target : addr + Other)
    (σ : Store) (a : addr) :
  unlinked (cell (mutate source (Service.addLinkedService target) σ) a)
  = unlinked (cell σ a).
Proof.
  simpl. destruct (decide (a = source)) as [->|Hne].
  - rewrite fn_lookup_alter. apply unlinked_addLinkedService.
  - by rewrite fn_lookup_alter_ne.
Qed.

(** The inner loop, whatever its outcome: it creates nothing, changes
    nothing but links, and touches no object but the service that the
    source key resolves to. *)
Lemma _configFromData_targets_frame (m : ServicesMap) (key : string)
    (keys : list string) :
  ∀ σ : Store,
    next (_configFromData_targets m key keys σ).2 = next σ
    ∧ (∀ a, unlinked (cell (_configFromData_targets m key keys σ).2 a)
            = unlinked (cell σ a))
    ∧ (∀ a, servicesMap_get σ m key ≠ Resolves a →
            cell (_configFromData_targets m key keys σ).2 a = cell σ a).
Proof.
  induction keys as [|k0 rest IH]; intros σ; cbn [_configFromData_targets].
  - done.
  - destruct (link_of (servicesMap_get σ m k0)) as [target|]; [|apply IH].
    destruct (servicesMap_get σ m key) as [source| |] eqn:Hkey; [|done..].
    set (σ1 := mutate source (Service.addLinkedService target) σ).
    assert (Hun1 : ∀ a, unlinked (cell σ1 a) = unlinked (cell σ a))
      by apply unlinked_mutate_addLinkedService.
    destruct (IH σ1) as (Hnext & Hun & Hother).
    split; [done|]. split.
    + intros a. by rewrite Hun.
    + intros a Ha. rewrite Hother.
      * simpl. rewrite fn_lookup_alter_ne; [done|]. congruence.
      * by rewrite (servicesMap_get_unlinked σ1 σ m key Hun1), Hkey.
Qed.

(** The inner loop for a source key that resolves to a service: it
    returns, and has added every value that a target key resolves to. *)
Lemma _configFromData_targets_spec (m : ServicesMap) (key : string)
    (source : addr) (keys : list string) :
  ∀ σ : Store,
    servicesMap_get σ m key = Resolves source →
    ∃ σ', _configFromData_targets m key keys σ = (Return tt, σ')
      ∧ ∀ link, link ∈ Service.linkedServices (cell σ' source)
                ↔ link ∈ Service.linkedServices (cell σ source)
                  ∨ ∃ k, k ∈ keys ∧ link_of (servicesMap_get σ m k) = Some link.
Proof.
  induction keys as [|k0 rest IH]; intros σ Hkey; cbn [_configFromData_targets].
  - exists σ. split; [done|]. intros link. split; [by left|].
    intros [?|(k & Hk & _)]; [done | by apply elem_of_nil in Hk].
  - destruct (link_of (servicesMap_get σ m k0)) as [target|] eqn:Hk0.
    + rewrite Hkey.
      set (σ1 := mutate source (Service.addLinkedService target) σ).
      assert (Hun1 : ∀ a, unlinked (cell σ1 a) = unlinked (cell σ a))
        by apply unlinked_mutate_addLinkedService.
      assert (Hget : ∀ k, servicesMap_get σ1 m k = servicesMap_get σ m k)
        by (intros k; by apply servicesMap_get_unlinked).
      destruct (IH σ1) as (σ' & Hrun & Hlinks); [by rewrite Hget|].
      exists σ'. split; [done|]. intros link. rewrite Hlinks.
      unfold σ1 at 1. simpl. rewrite fn_lookup_alter.
      rewrite elem_of_addLinkedService. split.
      * intros [[Hx | ->] |(k & Hk & Hm)].
        -- by left.
        -- right. exists k0. split; [by left | done].
        -- right. exists k. split; [by right | by rewrite <- Hget].
      * intros [Hx|(k & [->|Hk]%elem_of_cons & Hm)].
        -- left. by left.
        -- left. right. congruence.
        -- right. exists k. split; [done | by rewrite Hget].
    + destruct (IH σ Hkey) as (σ' & Hrun & Hlinks).
      exists σ'. split; [done|]. intros link. rewrite Hlinks. split.
      * intros [Hx|(k & Hk & Hm)]; [by left|].
        right. exists k. split; [by right | done].
      * intros [Hx|(k & [->|Hk]%elem_of_cons & Hm)]; [by left | congruence |].
        right. by exists k.
Qed.

(** The second loop, whatever its outcome: it creates nothing, changes
    nothing but links, and touches no object that the map does not hold. *)
Lemma _configFromData_links_frame (m : ServicesMap)
    (entries : list (string * list string)) :
  ∀ σ : Store,
    next (_configFromData_links m entries σ).2 = next σ
    ∧ (∀ a, unlinked (cell (_configFromData_links m entries σ).2 a)
            = unlinked (cell σ a))
    ∧ (∀ a, (∀ k, own m !! k ≠ Some a) → prototype m ≠ Some a →
            cell (_configFromData_links m entries σ).2 a = cell σ a).
Proof.
  induction entries as [|[key keys] rest IH]; intros σ;
    cbn [_configFromData_links]; [done|].
  destruct (_configFromData_targets_frame m key keys σ) as (Hnext1 & Hun1 & Hother1).
  assert (Hstep : ∀ a, (∀ k, own m !! k ≠ Some a) → prototype m ≠ Some a →
            cell (_configFromData_targets m key keys σ).2 a = cell σ a).
  { intros a Hown Hproto. apply Hother1.
    intros [?|?]%servicesMap_get_Resolves; [by apply (Hown key) | done]. }
  assert (Hgoal :
    next (match _configFromData_targets m key keys σ with
          | (Return _, σ0) => _configFromData_links m rest σ0
          | (Throw e, σ0) => (Throw e, σ0)
          end).2 = next σ
    ∧ (∀ a, unlinked (cell (match _configFromData_targets m key keys σ with
                            | (Return _, σ0) => _configFromData_links m rest σ0
                            | (Throw e, σ0) => (Throw e, σ0)
                            end).2 a) = unlinked (cell σ a))
    ∧ (∀ a, (∀ k, own m !! k ≠ Some a) → prototype m ≠ Some a →
            cell (match _configFromData_targets m key keys σ with
                  | (Return _, σ0) => _configFromData_links m rest σ0
                  | (Throw e, σ0) => (Throw e, σ0)
                  end).2 a = cell σ a)).
  { destruct (_configFromData_targets m key keys σ) as [[[]|e] σ1];
      simpl in Hnext1, Hun1, Hstep.
    - destruct (IH σ1) as (Hnext & Hun & Hother).
      split; [congruence|]. split.
      + intros a. by rewrite Hun.
      + intros a Hown Hproto. rewrite Hother by done. by apply Hstep.
    - done. }
  destruct (servicesMap_get σ m key); [exact Hgoal | exact Hgoal | apply IH].
Qed.

(** The second loop when no source key resolves to a value that is no
    service: it returns, and has added exactly the values that a target
    key resolves to under a source key that resolves to a service. *)
Lemma _configFromData_links_spec (m : ServicesMap)
    (entries : list (string * list string)) :
  ∀ σ : Store,
    (∀ entry value, entry ∈ entries →
                    servicesMap_get σ m entry.1 ≠ ResolvesOther value) →
    ∃ σ', _configFromData_links m entries σ = (Return tt, σ')
      ∧ ∀ a link,
          link ∈ Service.linkedServices (cell σ' a)
          ↔ link ∈ Service.linkedServices (cell σ a)
            ∨ ∃ entry k, entry ∈ entries
                         ∧ servicesMap_get σ m entry.1 = Resolves a
                         ∧ k ∈ entry.2
                         ∧ link_of (servicesMap_get σ m k) = Some link.
Proof.
  induction entries as [|[key keys] rest IH]; intros σ Hsources;
    cbn [_configFromData_links].
  - exists σ. split; [done|]. intros a link. split; [by left|].
    intros [?|(e & k & He & _)]; [done | by apply elem_of_nil in He].
  - assert (Hrest : ∀ entry value, entry ∈ rest →
              servicesMap_get σ m entry.1 ≠ ResolvesOther value)
      by (intros entry value He; apply Hsources; by right).
    destruct (servicesMap_get σ m key) as [source|value|] eqn:Hkey.
    + destruct (_configFromData_targets_spec m key source keys σ Hkey)
        as (σ1 & Hrun & Hlinks).
      destruct (_configFromData_targets_frame m key keys σ)
        as (_ & Hun1 & Hother1).
      rewrite Hrun in Hun1, Hother1 |- *. simpl in Hun1, Hother1.
      assert (Hget : ∀ k, servicesMap_get σ1 m k = servicesMap_get σ m k)
        by (intros k; by apply servicesMap_get_unlinked).
      destruct (IH σ1) as (σ' & Hrun' & Hadd).
      { intros entry value He. rewrite Hget. by apply Hrest. }
      exists σ'. split; [done|]. intros a link. rewrite Hadd.
      destruct (decide (a = source)) as [->|Hne].
      * rewrite Hlinks. split.
        -- intros [[Hx|(k & Hk & Hm)]|(e & k & He & Hs & Hk & Hm)].
           ++ by left.
           ++ right. exists (key, keys), k. split; [by left | done].
           ++ right. exists e, k. rewrite Hget in Hs, Hm.
              split; [by right | done].
        -- intros [Hx|(e & k & [->|He]%elem_of_cons & Hs & Hk & Hm)].
           ++ left. by left.
           ++ left. right. by exists k.
           ++ right. exists e, k. by rewrite !Hget.
      * rewrite Hother1 by congruence. split.
        -- intros [Hx|(e & k & He & Hs & Hk & Hm)]; [by left|].
           right. exists e, k. rewrite Hget in Hs, Hm.
           split; [by right | done].
        -- intros [Hx|(e & k & [->|He]%elem_of_cons & Hs & Hk & Hm)];
             [by left | simpl in Hs; congruence |].
           right. exists e, k. by rewrite !Hget.
    + exfalso. apply (Hsources (key, keys) value); [by left | done].
    + destruct (IH σ Hrest) as (σ' & Hrun' & Hadd).
      exists σ'. split; [done|]. intros a link. rewrite Hadd. split.
      * intros [Hx|(e & k & He & Hs & Hk & Hm)]; [by left|].
        right. exists e, k. split; [by right | done].
      * intros [Hx|(e & k & [->|He]%elem_of_cons & Hs & Hk & Hm)];
          [by left | simpl in Hs; congruence |].
        right. by exists e, k.
Qed.

(** Nothing is thrown in the second loop but the TypeError of a call to
    a method that the source does not have. *)
Lemma _configFromData_targets_Throw (m : ServicesMap) (key : string)
    (keys : list string) :
  ∀ (σ : Store) (e : Exception),
    (_configFromData_targets m key keys σ).1 = Throw e → e = TypeError.
Proof.
  induction keys as [|k0 rest IH]; intros σ e; cbn [_configFromData_targets];
    [done|].
  destruct (link_of (servicesMap_get σ m k0)); [|apply IH].
  destruct (servicesMap_get σ m key); [apply IH | |]; by intros [= <-].
Qed.

Lemma _configFromData_links_Throw (m : ServicesMap)
    (entries : list (string * list string)) :
  ∀ (σ : Store) (e : Exception),
    (_configFromData_links m entries σ).1 = Throw e → e = TypeError.
Proof.
  induction entries as [|[key keys] rest IH]; intros σ e;
    cbn [_configFromData_links]; [done|].
  pose proof (_configFromData_targets_Throw m key keys σ) as Hinner.
  assert (Hgoal :
    (match _configFromData_targets m key keys σ with
     | (Return _, σ0) => _configFromData_links m rest σ0
     | (Throw e0, σ0) => (Throw e0, σ0)
     end).1 = Throw e → e = TypeError).
  { destruct (_configFromData_targets m key keys σ) as [[[]|e0] σ1].
    - apply IH.
    - simpl. intros [= <-]. by apply Hinner. }
  destruct (servicesMap_get σ m key); [exact Hgoal | exact Hgoal | apply IH].
Qed.

Lemma key_unlinked (s s' : Service.t) :
  unlinked s = unlinked s' → Service.key s = Service.key s'.
Proof. unfold Service.key. by intros [= _ _ -> -> _ _]. Qed.

Lemma key_reconstructed (sp : ServicePresentation.t) :
  Service.key (reconstructed sp) = presentation_key sp.
Proof. done. Qed.

(** The first loop of [_configFromData] on a dictionary: the services it
    creates sit at consecutive fresh addresses in input order, each the
    reconstruction of its entry; the own entries of the lookup map a key
    to the last service that has it, the key "__proto__" apart, which
    gets no entry and replaces the prototype. *)
Lemma _configFromData_services_spec (data : Dictionary.t) (σ : Store) :
  ∃ (m : ServicesMap) (σ1 : Store),
    _configFromData_services data σ
    = (seq (next σ) (length (Dictionary.services data)), m, σ1)
    ∧ next σ1 = next σ + length (Dictionary.services data)
    ∧ (∀ a, a < next σ → cell σ1 a = cell σ a)
    ∧ (∀ i sp, Dictionary.services data !! i = Some sp →
         cell σ1 (next σ + i) = reconstructed sp)
    ∧ (∀ k a, own m !! k = Some a →
         ∃ i sp, Dictionary.services data !! i = Some sp
                 ∧ presentation_key sp = k ∧ a = next σ + i)
    ∧ (∀ i sp, Dictionary.services data !! i = Some sp →
         presentation_key sp ≠ "__proto__" →
         (∀ j sp', i < j → Dictionary.services data !! j = Some sp' →
                   presentation_key sp' ≠ presentation_key sp) →
         own m !! presentation_key sp = Some (next σ + i))
    ∧ (∀ k, own m !! k = None ↔
            k = "__proto__"
            ∨ ∀ sp, sp ∈ Dictionary.services data → presentation_key sp ≠ k)
    ∧ (∀ a, prototype m = Some a →
         ∃ i sp, Dictionary.services data !! i = Some sp
                 ∧ presentation_key sp = "__proto__" ∧ a = next σ + i)
    ∧ ((∀ sp, sp ∈ Dictionary.services data →
              presentation_key sp ≠ "__proto__") → prototype m = None).
Proof.
  destruct (_configFromData_services_loop (Dictionary.services data) []
              {| own := ∅; prototype := None |} σ)
    as (m & σ1 & Hfold & Hnext & Hframe & Hcells & Hmiss & Hpown & Hhit
        & Hlast & Hmono & Hsome & Hproto & Hplain).
  cbn [app] in Hfold. fold (_configFromData_services data σ) in Hfold.
  exists m, σ1. do 4 (split; [done|]).
  split.
  { intros k a Ha. destruct (Hhit k a Ha) as [Hempty|Hi]; [|done].
    simpl in Hempty. by rewrite lookup_empty in Hempty. }
  split; [done|].
  split.
  { intros k. split.
    - intros Hnone. destruct (decide (k = "__proto__")) as [->|Hne]; [by left|].
      right. intros sp Hsp Hkey. subst k.
      destruct (Hsome sp Hsp Hne) as [a Ha]. congruence.
    - intros [->|Hall].
      + rewrite Hpown. apply lookup_empty.
      + rewrite (Hmiss k Hall). apply lookup_empty. }
  split.
  { intros a Ha. destruct (Hproto a Ha) as [Hempty|Hi]; [done | done]. }
  done.
Qed.

(** [_configFromData] in terms of its two loops. *)
Lemma _configFromData_unfold (data : Dictionary.t) (this : PlatformAccessory.t)
    (σ σ1 : Store) (l : list addr) (m : ServicesMap) :
  _configFromData_services data σ = (l, m, σ1) →
  _configFromData data this σ
  = ((_configFromData_links m (visited data) σ1).1,
     match (_configFromData_links m (visited data) σ1).1 with
     | Return _ => set_services l (configured data this)
     | Throw _ => configured data this
     end,
     (_configFromData_links m (visited data) σ1).2).
Proof.
  intros Hloop. unfold _configFromData. rewrite Hloop.
  rewrite _configFromData_linkedServices_visited.
  by destruct (_configFromData_links m (visited data) σ1) as [[[]|e] σ'].
Qed.

(** What [_configFromData] leaves behind whatever its outcome: the fields
    of the dictionary, the new services at fresh addresses, each the
    reconstruction of its entry except for its links, and every older
    object as it was. The service list is replaced when the call returns
    and kept when it throws. *)
Lemma _configFromData_result (data : Dictionary.t)
    (this : PlatformAccessory.t) (σ : Store) :
  let r := _configFromData data this σ in
  displayName r.1.2 = Dictionary.displayName data
  ∧ UUID r.1.2 = Dictionary.UUID data
  ∧ category r.1.2 = Dictionary.category data
  ∧ context r.1.2 = Dictionary.context data
  ∧ reachable r.1.2 = false
  ∧ _associatedPlugin r.1.2 = Dictionary.plugin data
  ∧ _associatedPlatform r.1.2 = Dictionary.platform data
  ∧ _associatedHAPAccessory r.1.2 = _associatedHAPAccessory this
  ∧ services r.1.2
    = match r.1.1 with
      | Return _ => seq (next σ) (length (Dictionary.services data))
      | Throw _ => services this
      end
  ∧ (∀ e, r.1.1 = Throw e → e = TypeError)
  ∧ next r.2 = next σ + length (Dictionary.services data)
  ∧ (∀ a, a < next σ → cell r.2 a = cell σ a)
  ∧ (∀ i sp, Dictionary.services data !! i = Some sp →
       unlinked (cell r.2 (next σ + i)) = unlinked (reconstructed sp)).
Proof.
  intros r. subst r.
  destruct (_configFromData_services_spec data σ)
    as (m & σ1 & Hloop & Hnext & Hframe & Hcells & Hhit & _ & _ & Hproto & _).
  rewrite (_configFromData_unfold data this σ σ1 _ m Hloop).
  destruct (_configFromData_links_frame m (visited data) σ1)
    as (Hnext' & Hun & Hother).
  cbn [fst snd].
  assert (Hfields : ∀ this',
    this' = match (_configFromData_links m (visited data) σ1).1 with
            | Return _ => set_services (seq (next σ) (length (Dictionary.services data)))
                            (configured data this)
            | Throw _ => configured data this
            end →
    displayName this' = Dictionary.displayName data
    ∧ UUID this' = Dictionary.UUID data
    ∧ category this' = Dictionary.category data
    ∧ context this' = Dictionary.context data
    ∧ reachable this' = false
    ∧ _associatedPlugin this' = Dictionary.plugin data
    ∧ _associatedPlatform this' = Dictionary.platform data
    ∧ _associatedHAPAccessory this' = _associatedHAPAccessory this
    ∧ services this'
      = match (_configFromData_links m (visited data) σ1).1 with
        | Return _ => seq (next σ) (length (Dictionary.services data))
        | Throw _ => services this
        end).
  { intros this' ->.
    by destruct ((_configFromData_links m (visited data) σ1).1). }
  destruct (Hfields _ eq_refl) as (H1 & H2 & H3 & H4 & H5 & H6 & H7 & H8 & H9).
  do 9 (split; [done|]).
  split; [apply _configFromData_links_Throw|].
  split; [congruence|].
  split.
  { intros a Ha. rewrite Hother; [by apply Hframe| |].
    - intros k Hk. destruct (Hhit k a Hk) as (i & sp & _ & _ & ->). lia.
    - intros Hp. destruct (Hproto a Hp) as (i & sp & _ & _ & ->). lia. }
  intros i sp Hsp. by rewrite Hun, (Hcells i sp Hsp).
Qed.

(** X20. Stale keys are skipped. [_configFromData] returns, skipping
    every key of [linkedServices] that no service of the dictionary has,
    for a dictionary in which no service has the composite key
    "__proto__" and every source or target key of [linkedServices] that
    spells a property inherited from [Object.prototype] is the key of a
    service. The lookups the loop makes then find an own entry of
    [servicesMap] or nothing, an own entry exists exactly for the keys of
    the dictionary's services and holds a reconstructed service with that
    key, and the links of a reconstructed service are exactly the edges
    whose source key and target key both have an entry: an edge with an
    unresolvable end is left out and every other edge is added. *)
Theorem _configFromData_skips_unresolvable_keys (data : Dictionary.t)
    (this : PlatformAccessory.t) (σ : Store) :
  (∀ sp, sp ∈ Dictionary.services data → presentation_key sp ≠ "__proto__") →
  (∀ entries entry k, Dictionary.linkedServices data = Some entries →
     entry ∈ entries → k ∈ entry.1 :: entry.2 → k ∈ Object_prototype_names →
     ∃ sp, sp ∈ Dictionary.services data ∧ presentation_key sp = k) →
  let servicesMap := (_configFromData_services data σ).1.2 in
  let r := _configFromData data this σ in
  r.1.1 = Return tt
  ∧ services r.1.2 = seq (next σ) (length (Dictionary.services data))
  ∧ (∀ k, own servicesMap !! k = None ↔
          ∀ sp, sp ∈ Dictionary.services data → presentation_key sp ≠ k)
  ∧ (∀ entry k, entry ∈ visited data → k ∈ entry.1 :: entry.2 →
       servicesMap_get r.2 servicesMap k
       = match own servicesMap !! k with
         | Some a => Resolves a
         | None => Unresolved
         end)
  ∧ (∀ k a, own servicesMap !! k = Some a →
            a ∈ services r.1.2 ∧ Service.key (cell r.2 a) = k)
  ∧ (∀ source link, source ∈ services r.1.2 →
       (link ∈ Service.linkedServices (cell r.2 source)
        ↔ ∃ target entry k,
            link = inl target
            ∧ entry ∈ visited data ∧ own servicesMap !! entry.1 = Some source
            ∧ k ∈ entry.2 ∧ own servicesMap !! k = Some target)).
Proof.
  intros Hproto Hnames servicesMap r. subst servicesMap r.
  destruct (_configFromData_services_spec data σ)
    as (m & σ1 & Hloop & Hnext & Hframe & Hcells & Hhit & _ & Hnone & _ & Hplain).
  specialize (Hplain Hproto).
  rewrite (_configFromData_unfold data this σ σ1 _ m Hloop), Hloop.
  cbn [fst snd].
  assert (Hordinary : ∀ entry k, entry ∈ visited data → k ∈ entry.1 :: entry.2 →
            k ∈ Object_prototype_names → is_Some (own m !! k)).
  { intros entry k He Hk Hin.
    destruct (elem_of_visited data entry He)
      as [(entries & Hentries & Hown)|(i & text & ->)].
    - destruct (Hnames entries entry k Hentries Hown Hk Hin) as (sp & Hsp & <-).
      destruct (own m !! presentation_key sp) eqn:Hm; [by eexists|].
      apply Hnone in Hm as [Hm|Hm]; [by apply Hproto in Hm | by apply Hm in Hsp].
    - exfalso. simpl in Hk. apply elem_of_cons in Hk as [->|Hk].
      + by apply (index_key_ordinary i).
      + by apply (characters_ordinary text k). }
  assert (Hget : ∀ σ0 entry k, entry ∈ visited data → k ∈ entry.1 :: entry.2 →
            servicesMap_get σ0 m k
            = match own m !! k with Some a => Resolves a | None => Unresolved end).
  { intros σ0 entry k He Hk. apply servicesMap_get_plain_ordinary; [done|].
    by apply (Hordinary entry k). }
  destruct (_configFromData_links_spec m (visited data) σ1) as (σ' & Hrun & Hadd).
  { intros entry value He. rewrite (Hget σ1 entry entry.1 He) by (by left).
    by destruct (own m !! entry.1). }
  destruct (_configFromData_links_frame m (visited data) σ1) as (_ & Hun & _).
  rewrite Hrun in Hun |- *. cbn [fst snd] in Hun |- *.
  split; [done|]. split; [done|]. split.
  { intros k. rewrite Hnone. split; [|by right].
    intros [->|Hall]; [exact Hproto | exact Hall]. }
  split; [by apply Hget|]. split.
  { intros k a Ha. destruct (Hhit k a Ha) as (i & sp & Hsp & <- & ->).
    split.
    - apply elem_of_seq. apply lookup_lt_Some in Hsp. lia.
    - rewrite <- key_reconstructed. apply key_unlinked.
      by rewrite Hun, (Hcells i sp Hsp). }
  intros source link [Hge Hlt]%elem_of_seq.
  destruct (lookup_lt_is_Some_2 (Dictionary.services data) (source - next σ))
    as [sp Hsp]; [lia|].
  assert (Hnil : Service.linkedServices (cell σ1 source) = []).
  { replace source with (next σ + (source - next σ)) by lia.
    by rewrite (Hcells _ sp Hsp). }
  rewrite Hadd, Hnil. split.
  - intros [Hx|(entry & k & He & Hs & Hk & Hm)]; [by apply elem_of_nil in Hx|].
    rewrite (Hget σ1 entry entry.1 He) in Hs by (by left).
    rewrite (Hget σ1 entry k He) in Hm by (by right).
    destruct (own m !! entry.1) as [a|] eqn:Hsource; [|done].
    destruct (own m !! k) as [target|] eqn:Htarget; [|done].
    injection Hs as ->. injection Hm as <-.
    by exists target, entry, k.
  - intros (target & entry & k & -> & He & Hs & Hk & Hm).
    right. exists entry, k. split; [done|].
    rewrite (Hget σ1 entry entry.1 He) by (by left).
    rewrite (Hget σ1 entry k He) by (by right).
    by rewrite Hs, Hm.
Qed.

Lemma _configFromData_skips_unresolvable_keys_witness :
  let r := _configFromData stale_snapshot (accessory_with []) empty_store in
  r.1.1 = Return tt ∧ services r.1.2 = [0; 1].
Proof.
  destruct (_configFromData_skips_unresolvable_keys stale_snapshot
              (accessory_with []) empty_store)
    as (Hreturn & Hservices & _).
  - refine (proj1 (list.Forall_forall
             (λ sp, presentation_key sp ≠ "__proto__")
             (Dictionary.services stale_snapshot)) _).
    compute_done.
  - intros entries entry k [= <-] He Hk Hin. exfalso. revert Hin.
    revert k Hk. refine (proj1 (list.Forall_forall
             (λ k, k ∉ Object_prototype_names) (entry.1 :: entry.2)) _).
    revert entry He. refine (proj1 (list.Forall_forall
             (λ entry, Forall (λ k, k ∉ Object_prototype_names)
                              (entry.1 :: entry.2))
             [("A", ["B"; "Zombie"]); ("Ghost", ["A"]); ("B", [])]) _).
    compute_done.
  - split; [exact Hreturn | exact Hservices].
Defined.

(** C7, at the inputs where the code leaves it. No service of the
    snapshot has the key "constructor", yet [servicesMap["constructor"]]
    is truthy: it is the function [Object], inherited from
    [Object.prototype], which has no [addLinkedService], and once the
    target "B" resolves the call on line 274 throws a TypeError; the
    model is left with the service list it had. A stale target key of
    that kind does not stop the call, and is not skipped either: under
    the source "A" the target "toString" resolves to a function, which
    is added to the links of "A". *)
Theorem _configFromData_throws_on_inherited_key :
  let stale_source := snapshot_linking "constructor" ["B"] in
  let stale_target := snapshot_linking "A" ["toString"] in
  let r := _configFromData stale_source (accessory_with [7]) empty_store in
  let r' := _configFromData stale_target (accessory_with [7]) empty_store in
  Forall (λ sp, presentation_key sp ≠ "constructor"
                ∧ presentation_key sp ≠ "toString")
         (Dictionary.services stale_source)
  ∧ Dictionary.services stale_target = Dictionary.services stale_source
  ∧ r.1.1 = Throw TypeError
  ∧ services r.1.2 = [7]
  ∧ r'.1.1 = Return tt
  ∧ services r'.1.2 = [0; 1]
  ∧ Service.linkedServices (cell r'.2 0) = [inr (BuiltIn "toString")].
Proof. split; [compute_done|]. repeat split. Qed.

Example stale_snapshot_restored :
  let r := _configFromData stale_snapshot (accessory_with []) empty_store in
  r.1.1 = Return tt
  ∧ services r.1.2 = [0; 1]
  ∧ Service.linkedServices (cell r.2 0) = [inl 1]
  ∧ Service.linkedServices (cell r.2 1) = [].
Proof. repeat split. Qed.

(** ** The serializer *)

Lemma append_empty_r (s : string) : s +:+ "" = s.
Proof.
  induction s as [|c s IH]; [done|].
  change (String c (s +:+ "") = String c s). by rewrite IH.
Qed.

Lemma Obj_get_None {V} (k : string) (o : Obj.t V) :
  Obj.get k o = None ↔ k ∉ o.*1.
Proof.
  induction o as [|[k' v] o IH]; simpl.
  - split; [intros _; apply not_elem_of_nil | done].
  - case_bool_decide as Hk.
    + subst k'. split; [done|]. intros Hnot. exfalso. apply Hnot. by left.
    + rewrite IH, not_elem_of_cons. split; [|by intros [_ ?]].
      intros Hnot. split; [congruence | done].
Qed.

Lemma Obj_set_ordinary {V} (k : string) (v : V) (o : Obj.t V) :
  k ≠ "__proto__" → Obj.set k v o = Obj.define k v o.
Proof. intros Hne. unfold Obj.set. by rewrite bool_decide_eq_false_2. Qed.

Lemma Obj_define_fresh {V} (k : string) (v : V) (o : Obj.t V) :
  k ∉ o.*1 → Obj.define k v o = o ++ [(k, v)].
Proof.
  induction o as [|[k' v'] o IH]; simpl; [done|].
  intros [Hne Hnot]%not_elem_of_cons.
  rewrite bool_decide_eq_false_2 by done. by rewrite IH.
Qed.

Lemma Obj_get_define_eq {V} (k : string) (v : V) (o : Obj.t V) :
  Obj.get k (Obj.define k v o) = Some v.
Proof.
  induction o as [|[k' v'] o IH]; simpl.
  - by rewrite bool_decide_eq_true_2.
  - case_bool_decide as Hk; simpl.
    + by rewrite bool_decide_eq_true_2.
    + by rewrite bool_decide_eq_false_2.
Qed.

Lemma Obj_get_define_ne {V} (k k' : string) (v : V) (o : Obj.t V) :
  k ≠ k' → Obj.get k' (Obj.define k v o) = Obj.get k' o.
Proof.
  intros Hne. induction o as [|[k0 v0] o IH]; simpl.
  - by rewrite bool_decide_eq_false_2.
  - case_bool_decide as Hk; simpl.
    + subst k0. by rewrite !bool_decide_eq_false_2.
    + by rewrite IH.
Qed.

Lemma Obj_keys_define {V} (k : string) (v : V) (o : Obj.t V) :
  (Obj.define k v o).*1 = if bool_decide (k ∈ o.*1) then o.*1 else o.*1 ++ [k].
Proof.
  induction o as [|[k' v'] o IH]; simpl; [done|].
  destruct (decide (k' = k)) as [->|Hne].
  - rewrite (bool_decide_eq_true_2 (k = k)) by done. simpl.
    rewrite bool_decide_eq_true_2 by (by left). done.
  - rewrite (bool_decide_eq_false_2 (k' = k)) by done.
    change ((k', v') :: Obj.define k v o).*1 with (k' :: (Obj.define k v o).*1).
    change (((k', v') :: o).*1) with (k' :: o.*1). rewrite IH.
    destruct (decide (k ∈ o.*1)) as [Hin|Hnot].
    + rewrite (bool_decide_eq_true_2 (k ∈ o.*1)) by done.
      rewrite bool_decide_eq_true_2 by (by right). done.
    + rewrite (bool_decide_eq_false_2 (k ∈ o.*1)) by done.
      rewrite bool_decide_eq_false_2; [done|].
      intros [?|?]%elem_of_cons; [congruence | done].
Qed.

(** An assignment reads back, unless it went to "__proto__". *)
Lemma Obj_get_set_eq {V} (k : string) (v : V) (o : Obj.t V) :
  k ≠ "__proto__" → Obj.get k (Obj.set k v o) = Some v.
Proof. intros Hne. rewrite Obj_set_ordinary by done. apply Obj_get_define_eq. Qed.

Lemma Obj_get_set_ne {V} (k k' : string) (v : V) (o : Obj.t V) :
  k ≠ k' → Obj.get k' (Obj.set k v o) = Obj.get k' o.
Proof.
  intros Hne. unfold Obj.set. case_bool_decide; [done|].
  by apply Obj_get_define_ne.
Qed.

Lemma Obj_keys_set_elem {V} (k k' : string) (v : V) (o : Obj.t V) :
  k' ∈ (Obj.set k v o).*1 ↔ (k' = k ∧ k ≠ "__proto__") ∨ k' ∈ o.*1.
Proof.
  unfold Obj.set. case_bool_decide as Hp.
  - split; [by right | by intros [[_ ?]|?]].
  - rewrite Obj_keys_define. case_bool_decide as Hin.
    + split; [by right | by intros [[-> _]|?]].
    + rewrite elem_of_app, list_elem_of_singleton. tauto.
Qed.

Lemma Obj_keys_set_NoDup {V} (k : string) (v : V) (o : Obj.t V) :
  NoDup o.*1 → NoDup (Obj.set k v o).*1.
Proof.
  intros Hnd. unfold Obj.set. case_bool_decide; [done|].
  rewrite Obj_keys_define. case_bool_decide as Hin; [done|].
  apply list.NoDup_app. split; [done|]. split; [|apply NoDup_singleton].
  intros x Hx ->%list_elem_of_singleton. done.
Qed.

(** One round of the loop, with the suffix that the mapping under
    construction gives to every target key of the round. *)
Lemma _dictionaryPresentation_service_links (σ : Store)
    (sacc : list ServicePresentation.t) (lacc : Obj.t (list string))
    (pacc : option (list string)) (a : addr) :
  _dictionaryPresentation_service σ (sacc, lacc, pacc) a
  = (sacc ++ [servicePresentation σ a],
     Obj.set (Service.key (cell σ a))
       ((λ linked, linked_UUID σ linked +:+ linkedServices_subtype_or_empty lacc)
          <$> Service.linkedServices (cell σ a))
       lacc,
     if bool_decide (Service.key (cell σ a) = "__proto__")
     then Some ((λ linked, linked_UUID σ linked
                           +:+ linkedServices_subtype_or_empty lacc)
                  <$> Service.linkedServices (cell σ a))
     else pacc).
Proof. done. Qed.

Lemma _dictionaryPresentation_service_unfold (σ : Store)
    (sacc : list ServicePresentation.t) (lacc : Obj.t (list string))
    (pacc : option (list string)) (a : addr) :
  Obj.get "subtype" lacc = None →
  Service.key (cell σ a) ≠ "__proto__" →
  _dictionaryPresentation_service σ (sacc, lacc, pacc) a
  = (sacc ++ [servicePresentation σ a],
     Obj.define (Service.key (cell σ a)) (linkedPresentation σ a).2 lacc,
     pacc).
Proof.
  intros Hnone Hne. rewrite _dictionaryPresentation_service_links.
  unfold linkedServices_subtype_or_empty. rewrite Hnone.
  rewrite bool_decide_eq_false_2 by done.
  rewrite Obj_set_ordinary by done.
  f_equal. f_equal. f_equal. simpl. apply list_fmap_ext.
  intros _ linked _. apply append_empty_r.
Qed.

(** The loop of the serializer over a list of services with pairwise
    distinct composite keys, none of them spelled "subtype" or
    "__proto__". *)
Lemma _dictionaryPresentation_loop (σ : Store) (l : list addr) :
  ∀ (sacc : list ServicePresentation.t) (lacc : Obj.t (list string))
    (pacc : option (list string)),
    "subtype" ∉ lacc.*1 →
    (∀ a, a ∈ l → Service.key (cell σ a) ≠ "subtype"
                  ∧ Service.key (cell σ a) ≠ "__proto__") →
    NoDup (lacc.*1 ++ ((λ a, Service.key (cell σ a)) <$> l)) →
    fold_left (_dictionaryPresentation_service σ) l (sacc, lacc, pacc)
    = (sacc ++ (servicePresentation σ <$> l),
       lacc ++ (linkedPresentation σ <$> l), pacc).
Proof.
  induction l as [|a rest IH]; intros sacc lacc pacc Hsub Hkeys Hnodup.
  - simpl. by rewrite !app_nil_r.
  - cbn [fold_left].
    rewrite _dictionaryPresentation_service_unfold;
      [|by apply Obj_get_None | apply Hkeys; by left].
    simpl in Hnodup. apply list.NoDup_app in Hnodup as (Hl & Hsep & Hr).
    apply list.NoDup_cons in Hr as [Ha Hr].
    assert (Hfresh : Service.key (cell σ a) ∉ lacc.*1).
    { intros Hin. apply (Hsep _ Hin). by left. }
    rewrite Obj_define_fresh by done.
    rewrite IH.
    + simpl. by rewrite <- !app_assoc.
    + rewrite fmap_app. simpl. intros [Hin|Hin%list_elem_of_singleton]%elem_of_app.
      * done.
      * symmetry in Hin. revert Hin. apply Hkeys. by left.
    + intros b Hb. apply Hkeys. by right.
    + rewrite fmap_app. simpl. rewrite <- app_assoc. simpl.
      apply list.NoDup_app. split; [done|]. split.
      * intros k Hk [->|Hin]%elem_of_cons; [done|].
        apply (Hsep k Hk). by right.
      * by apply list.NoDup_cons.
Qed.

Lemma _dictionaryPresentation_services_loop (σ : Store) (l : list addr) :
  ∀ (sacc : list ServicePresentation.t) (lacc : Obj.t (list string))
    (pacc : option (list string)),
    (fold_left (_dictionaryPresentation_service σ) l (sacc, lacc, pacc)).1.1
    = sacc ++ (servicePresentation σ <$> l).
Proof.
  induction l as [|a rest IH]; intros sacc lacc pacc; cbn [fold_left].
  - simpl. by rewrite app_nil_r.
  - rewrite _dictionaryPresentation_service_links.
    rewrite IH. simpl. by rewrite <- app_assoc.
Qed.

(** The mapping the loop builds, for any list of services: its keys, the
    entry of each key, and the prototype it ends with. *)
Lemma _dictionaryPresentation_links_loop (σ : Store) (l : list addr) :
  ∀ (sacc : list ServicePresentation.t) (lacc : Obj.t (list string))
    (pacc : option (list string))
    (sps : list ServicePresentation.t) (d : Obj.t (list string))
    (p : option (list string)),
    fold_left (_dictionaryPresentation_service σ) l (sacc, lacc, pacc)
    = (sps, d, p) →
    (∀ k, k ∈ d.*1
          ↔ k ∈ lacc.*1
            ∨ (k ≠ "__proto__" ∧ ∃ a, a ∈ l ∧ Service.key (cell σ a) = k))
    ∧ (NoDup lacc.*1 → NoDup d.*1)
    ∧ (∀ k, (∀ a, a ∈ l → Service.key (cell σ a) ≠ k) →
         Obj.get k d = Obj.get k lacc)
    ∧ (∀ i a, l !! i = Some a →
         (∀ j b, i < j → l !! j = Some b →
                 Service.key (cell σ b) ≠ Service.key (cell σ a)) →
         ∃ suffix,
           (if bool_decide (Service.key (cell σ a) = "__proto__")
            then p else Obj.get (Service.key (cell σ a)) d)
           = Some ((λ linked, linked_UUID σ linked +:+ suffix)
                     <$> Service.linkedServices (cell σ a))
           ∧ (Obj.get "subtype" lacc = None →
              (∀ j b, j < i → l !! j = Some b →
                      Service.key (cell σ b) ≠ "subtype") →
              suffix = ""))
    ∧ ((∀ a, a ∈ l → Service.key (cell σ a) ≠ "__proto__") → p = pacc).
Proof.
  induction l as [|a0 rest IH]; intros sacc lacc pacc sps d p; cbn [fold_left].
  - intros [= <- <- <-]. split; [|split; [done|split; [done|split; [|done]]]].
    + intros k. split; [by left|]. intros [?|(_ & a & Ha & _)]; [done|].
      by apply elem_of_nil in Ha.
    + intros i a Ha. done.
  - rewrite _dictionaryPresentation_service_links.
    set (emitted := (λ linked, linked_UUID σ linked
                               +:+ linkedServices_subtype_or_empty lacc)
                      <$> Service.linkedServices (cell σ a0)).
    set (lacc1 := Obj.set _ emitted lacc).
    set (pacc1 := if bool_decide (Service.key (cell σ a0) = "__proto__")
                  then Some emitted else pacc).
    intros Hfold.
    destruct (IH _ lacc1 pacc1 sps d p Hfold)
      as (Hkeys & Hnodup & Hmiss & Hlast & Hproto).
    split; [|split; [|split; [|split]]].
    + intros k. rewrite Hkeys. unfold lacc1. rewrite Obj_keys_set_elem. split.
      * intros [[[-> Hne]|Hk]|(Hne & a & Ha & Hk)].
        -- right. split; [done|]. exists a0. split; [by left | done].
        -- by left.
        -- right. split; [done|]. exists a. split; [by right | done].
      * intros [Hk|(Hne & a & [->|Ha]%elem_of_cons & Hk)].
        -- left. by right.
        -- left. left. by subst k.
        -- right. split; [done|]. by exists a.
    + intros Hnd. apply Hnodup. by apply Obj_keys_set_NoDup.
    + intros k Hk. rewrite Hmiss.
      * unfold lacc1. apply Obj_get_set_ne. apply Hk. by left.
      * intros a Ha. apply Hk. by right.
    + intros [|i] a Ha Hlater; simpl in Ha.
      * injection Ha as <-.
        exists (linkedServices_subtype_or_empty lacc). split.
        -- case_bool_decide as Hp.
           ++ rewrite Hproto.
              ** unfold pacc1. by rewrite ?bool_decide_eq_true_2 by done.
              ** intros b [j Hj]%list_elem_of_lookup. rewrite <- Hp.
                 apply (Hlater (S j) b); [lia | done].
           ++ rewrite Hmiss.
              ** unfold lacc1. by apply Obj_get_set_eq.
              ** intros b [j Hj]%list_elem_of_lookup.
                 apply (Hlater (S j) b); [lia | done].
        -- intros Hnone _. unfold linkedServices_subtype_or_empty.
           by rewrite Hnone.
      * destruct (Hlast i a Ha) as (suffix & Hget & Hempty).
        { intros j b Hij Hb. apply (Hlater (S j) b); [lia | done]. }
        exists suffix. split; [done|].
        intros Hnone Hearlier. apply Hempty.
        -- unfold lacc1. rewrite Obj_get_set_ne; [done|].
           apply (Hearlier 0 a0); [lia | done].
        -- intros j b Hji Hb. apply (Hearlier (S j) b); [lia | done].
    + intros Hall. rewrite Hproto.
      * unfold pacc1. rewrite bool_decide_eq_false_2; [done|].
        apply Hall. by left.
      * intros a Ha. apply Hall. by right.
Qed.

(** The serializer copies the identity of the model and lists its
    services in order, whatever the model. *)
Lemma _dictionaryPresentation_fields (this : PlatformAccessory.t) (σ : Store) :
  Dictionary.plugin (_dictionaryPresentation this σ) = _associatedPlugin this
  ∧ Dictionary.platform (_dictionaryPresentation this σ) = _associatedPlatform this
  ∧ Dictionary.displayName (_dictionaryPresentation this σ) = displayName this
  ∧ Dictionary.UUID (_dictionaryPresentation this σ) = UUID this
  ∧ Dictionary.category (_dictionaryPresentation this σ) = category this
  ∧ Dictionary.context (_dictionaryPresentation this σ) = context this
  ∧ Dictionary.services (_dictionaryPresentation this σ)
    = servicePresentation σ <$> services this.
Proof.
  unfold _dictionaryPresentation.
  match goal with
  | |- context [fold_left ?f ?l ?x] =>
      pose proof (_dictionaryPresentation_services_loop σ (services this) [] [] None
                  : (fold_left f l x).1.1 = _) as Hloop;
      destruct (fold_left f l x) as [[sps links] proto]
  end.
  simpl in *. by subst sps.
Qed.

(** The mapping the serializer emits, with its prototype. *)
Lemma _dictionaryPresentation_mapping (this : PlatformAccessory.t) (σ : Store) :
  ∃ sps d p,
    fold_left (_dictionaryPresentation_service σ) (services this) ([], [], None)
    = (sps, d, p)
    ∧ Dictionary.linkedServices (_dictionaryPresentation this σ) = Some d
    ∧ Dictionary.linkedServices_prototype (_dictionaryPresentation this σ) = p.
Proof.
  unfold _dictionaryPresentation.
  match goal with
  | |- context [fold_left ?f ?l ?x] =>
      destruct (fold_left f l x) as [[sps d] p]
  end.
  by exists sps, d, p.
Qed.

(** The keys of the emitted mapping are composite keys of services, and
    never "__proto__". *)
Lemma _dictionaryPresentation_keys (this : PlatformAccessory.t) (σ : Store)
    (d : Obj.t (list string)) (k : string) :
  Dictionary.linkedServices (_dictionaryPresentation this σ) = Some d →
  k ∈ d.*1 →
  k ≠ "__proto__" ∧ ∃ a, a ∈ services this ∧ Service.key (cell σ a) = k.
Proof.
  destruct (_dictionaryPresentation_mapping this σ) as (sps & d' & p & Hfold & -> & _).
  intros [= <-] Hk.
  destruct (_dictionaryPresentation_links_loop σ (services this) [] [] None
              sps d' p Hfold) as (Hkeys & _).
  apply Hkeys in Hk as [Hk|Hk]; [by apply elem_of_nil in Hk | done].
Qed.

(** ** The round trip *)

Lemma hapCharacteristic_presentation (c : Characteristic.t) :
  hapCharacteristic (characteristicPresentation c) = c.
Proof. by destruct c. Qed.

Lemma reconstructed_characteristics (σ : Store) (a : addr) :
  Service.characteristics (reconstructed (servicePresentation σ a))
  = Service.characteristics (cell σ a).
Proof.
  simpl. rewrite <- list_fmap_compose. rewrite <- (list_fmap_id (Service.characteristics _)) at 2.
  apply list_fmap_ext. intros _ c _. apply hapCharacteristic_presentation.
Qed.

Lemma unlinked_fields (s s' : Service.t) :
  unlinked s = unlinked s' →
  Service.displayName s = Service.displayName s'
  ∧ Service.UUID s = Service.UUID s'
  ∧ Service.subtype s = Service.subtype s'
  ∧ Service.characteristics s = Service.characteristics s'.
Proof. by intros [= -> _ -> -> -> _]. Qed.

Lemma key_without_subtype (s : Service.t) :
  truthy (Service.subtype s) = false → Service.key s = Service.UUID s.
Proof.
  intros Hst. unfold Service.key, or_empty. rewrite Hst.
  destruct (Service.subtype s); apply append_empty_r.
Qed.

(** What the serializer emits for a model whose composite keys are
    pairwise distinct and never spelled "subtype" or "__proto__". *)
Lemma _dictionaryPresentation_distinct_keys (this : PlatformAccessory.t)
    (σ : Store) :
  NoDup ((λ a, Service.key (cell σ a)) <$> services this) →
  (∀ a, a ∈ services this → Service.key (cell σ a) ≠ "subtype"
                            ∧ Service.key (cell σ a) ≠ "__proto__") →
  _dictionaryPresentation this σ
  = {| Dictionary.plugin := _associatedPlugin this;
       Dictionary.platform := _associatedPlatform this;
       Dictionary.displayName := displayName this;
       Dictionary.UUID := UUID this;
       Dictionary.category := category this;
       Dictionary.context := context this;
       Dictionary.linkedServices := Some (linkedPresentation σ <$> services this);
       Dictionary.linkedServices_prototype := None;
       Dictionary.services := servicePresentation σ <$> services this |}.
Proof.
  intros Hnodup Hsub. unfold _dictionaryPresentation.
  pose proof (_dictionaryPresentation_loop σ (services this) [] [] None) as Hloop.
  unfold Obj.t in *. rewrite Hloop; [done | apply not_elem_of_nil | done | done].
Qed.

Lemma NoDup_fmap_lookup_inj {A B} (f : A → B) (l : list A) (i j : nat) (x y : A) :
  NoDup (f <$> l) → l !! i = Some x → l !! j = Some y → f x = f y → i = j.
Proof.
  intros Hnodup Hi Hj Hf. apply (NoDup_lookup (f <$> l) i j (f x) Hnodup).
  - by rewrite list_lookup_fmap, Hi.
  - by rewrite list_lookup_fmap, Hj, Hf.
Qed.

(** Deserializing what the serializer emitted returns, for every model:
    a source key that the second loop visits is the composite key of a
    service, which has an entry in the lookup, or the key of an array
    index, which finds an entry or nothing. *)
Lemma round_trip_returns (this this0 : PlatformAccessory.t) (σ σ0 : Store) :
  (_configFromData (_dictionaryPresentation this σ) this0 σ0).1.1 = Return tt.
Proof.
  set (data := _dictionaryPresentation this σ).
  destruct (_configFromData_services_spec data σ0)
    as (m & σ1 & Hloop & _ & _ & _ & _ & _ & Hnone & _).
  rewrite (_configFromData_unfold data this0 σ0 σ1 _ m Hloop). cbn [fst].
  destruct (_configFromData_links_spec m (visited data) σ1) as (σ' & -> & _);
    [|done].
  intros entry value He.
  destruct (elem_of_visited data entry He)
    as [(entries & Hentries & Hown)|(i & text & ->)].
  - destruct (_dictionaryPresentation_keys this σ entries entry.1 Hentries)
      as (Hne & a & Ha & Hkey); [by apply list_elem_of_fmap_2|].
    destruct (own m !! entry.1) as [b|] eqn:Hm.
    + by rewrite (servicesMap_get_own σ1 m _ b Hm).
    + exfalso. apply Hnone in Hm as [Hm|Hm]; [done|].
      apply (Hm (servicePresentation σ a)); [|exact Hkey].
      unfold data.
      destruct (_dictionaryPresentation_fields this σ)
        as (_ & _ & _ & _ & _ & _ & ->).
      by apply list_elem_of_fmap_2.
  - simpl. rewrite servicesMap_get_index_key.
    by destruct (own m !! index_key i).
Qed.

(** The part of the round trip that holds for every model. *)
Lemma round_trip_fields (this this0 : PlatformAccessory.t) (σ σ0 : Store) :
  let r := _configFromData (_dictionaryPresentation this σ) this0 σ0 in
  r.1.1 = Return tt
  ∧ displayName r.1.2 = displayName this
  ∧ UUID r.1.2 = UUID this
  ∧ category r.1.2 = category this
  ∧ context r.1.2 = context this
  ∧ services r.1.2 = seq (next σ0) (length (services this))
  ∧ ∀ i a, services this !! i = Some a →
      unlinked (cell r.2 (next σ0 + i))
      = unlinked (reconstructed (servicePresentation σ a)).
Proof.
  intros r. subst r.
  destruct (_dictionaryPresentation_fields this σ)
    as (_ & _ & Hd_dn & Hd_id & Hd_cat & Hd_ctx & Hd_services).
  destruct (_configFromData_result (_dictionaryPresentation this σ) this0 σ0)
    as (Hdn & Hid & Hcat & Hctx & _ & _ & _ & _ & Hservices & _ & _ & _ & Hcells).
  pose proof (round_trip_returns this this0 σ σ0) as Hreturn.
  rewrite Hreturn in Hservices.
  rewrite Hdn, Hid, Hcat, Hctx, Hservices, Hd_services, length_fmap.
  do 6 (split; [done|]).
  intros i a Ha. apply Hcells. by rewrite Hd_services, list_lookup_fmap, Ha.
Qed.

(** The round trip under the conditions that keep every link: pairwise
    distinct composite keys, none of them spelled "subtype" or
    "__proto__", and linked services that are services of the model
    without a subtype. *)
Lemma round_trip_keeps_links (this this0 : PlatformAccessory.t)
    (σ σ0 : Store) :
  NoDup ((λ a, Service.key (cell σ a)) <$> services this) →
  (∀ a, a ∈ services this → Service.key (cell σ a) ≠ "subtype"
                            ∧ Service.key (cell σ a) ≠ "__proto__") →
  (∀ a link, a ∈ services this → link ∈ Service.linkedServices (cell σ a) →
     ∃ t, link = inl t ∧ t ∈ services this
          ∧ truthy (Service.subtype (cell σ t)) = false) →
  let r := _configFromData (_dictionaryPresentation this σ) this0 σ0 in
  ∀ i a a', services this !! i = Some a → services r.1.2 !! i = Some a' →
    ∀ k, k ∈ link_key r.2 <$> Service.linkedServices (cell r.2 a')
         ↔ k ∈ link_key σ <$> Service.linkedServices (cell σ a).
Proof.
  intros Hnodup Hsub Hlinked r i a a' Ha Ha'. subst r.
  destruct (round_trip_fields this this0 σ σ0)
    as (_ & _ & _ & _ & _ & Hservices & Hcells).
  rewrite Hservices in Ha'. apply lookup_seq in Ha' as [-> Hlt].
  revert Hcells.
  rewrite (_dictionaryPresentation_distinct_keys this σ Hnodup Hsub).
  match goal with |- context [_configFromData ?d _ _] => set (data := d) end.
  intros Hcells.
  destruct (_configFromData_services_spec data σ0)
    as (m & σ1 & Hloop & _ & _ & Hcells1 & Hhit & Hlast & _ & _ & Hplain).
  assert (Hentry : ∀ j b, services this !! j = Some b →
            Dictionary.services data !! j = Some (servicePresentation σ b)).
  { intros j b Hb. simpl. by rewrite list_lookup_fmap, Hb. }
  assert (Hback : ∀ j sp, Dictionary.services data !! j = Some sp →
            ∃ b, services this !! j = Some b ∧ sp = servicePresentation σ b).
  { intros j sp Hsp. simpl in Hsp. rewrite list_lookup_fmap in Hsp.
    destruct (services this !! j) as [b|]; [|done].
    exists b. split; [done|]. by injection Hsp as <-. }
  assert (Hresolve : ∀ σ2 j b, services this !! j = Some b →
            servicesMap_get σ2 m (Service.key (cell σ b))
            = Resolves (next σ0 + j)).
  { intros σ2 j b Hb. apply servicesMap_get_own.
    apply (Hlast j (servicePresentation σ b) (Hentry j b Hb)).
    - apply Hsub. apply list_elem_of_lookup. eauto.
    - intros j' sp' Hjj Hsp' Hkey.
      destruct (Hback j' sp' Hsp') as (b' & Hb' & ->).
      assert (j = j'); [|lia].
      by apply (NoDup_fmap_lookup_inj (λ a, Service.key (cell σ a))
                  (services this) j j' b b' Hnodup Hb Hb'). }
  assert (Hvisited : visited data = linkedPresentation σ <$> services this).
  { unfold visited, Obj.for_in. simpl. apply app_nil_r. }
  rewrite (_configFromData_unfold data this0 σ0 σ1 _ m Hloop) in Hcells |- *.
  cbn [fst snd] in Hcells |- *. rewrite Hvisited in Hcells |- *.
  destruct (_configFromData_links_spec m (linkedPresentation σ <$> services this) σ1)
    as (σ' & Hrun & Hadd).
  { intros entry value (b & -> & [j Hb]%list_elem_of_lookup)%list_elem_of_fmap.
    simpl. by rewrite (Hresolve σ1 j b Hb). }
  rewrite Hrun in Hcells |- *. cbn [fst snd] in Hcells |- *.
  assert (Hkeys : ∀ j b, services this !! j = Some b →
            Service.key (cell σ' (next σ0 + j)) = Service.key (cell σ b)).
  { intros j b Hb. by rewrite (key_unlinked _ _ (Hcells j b Hb)). }
  assert (Hnil : Service.linkedServices (cell σ1 (next σ0 + i)) = [])
    by (by rewrite (Hcells1 i _ (Hentry i a Ha))).
  assert (Ha_in : a ∈ services this) by (apply list_elem_of_lookup; eauto).
  intros k. rewrite !list_elem_of_fmap. split.
  - intros (link' & -> & Hlink').
    apply Hadd in Hlink' as [Hlink'|(entry & tk & He & Hs & Htk & Hm)];
      [rewrite Hnil in Hlink'; by apply elem_of_nil in Hlink'|].
    apply list_elem_of_fmap in He as (b & -> & Hb).
    apply list_elem_of_lookup in Hb as [j Hb].
    simpl in Hs, Htk.
    rewrite (Hresolve σ1 j b Hb) in Hs.
    assert (j = i) as -> by (injection Hs; lia).
    assert (b = a) as -> by congruence.
    apply list_elem_of_fmap in Htk as (link & -> & Hlink).
    destruct (Hlinked a link Ha_in Hlink) as (t & -> & Ht_in & Ht_sub).
    exists (inl t). split; [|done].
    apply list_elem_of_lookup in Ht_in as [jt Hjt].
    simpl in Hm. rewrite <- (key_without_subtype _ Ht_sub) in Hm.
    rewrite (Hresolve σ1 jt t Hjt) in Hm. injection Hm as <-.
    simpl. apply (Hkeys jt t Hjt).
  - intros (link & -> & Hlink).
    destruct (Hlinked a link Ha_in Hlink) as (t & -> & Ht_in & Ht_sub).
    apply list_elem_of_lookup in Ht_in as [jt Hjt].
    exists (inl (next σ0 + jt)). split; [simpl; by rewrite (Hkeys jt t Hjt)|].
    apply Hadd. right.
    exists (linkedPresentation σ a), (Service.UUID (cell σ t)).
    split; [by apply list_elem_of_fmap_2|].
    split; [by apply Hresolve|].
    split; [simpl; by apply (list_elem_of_fmap_2 (linked_UUID σ) _ (inl t))|].
    rewrite <- (key_without_subtype _ Ht_sub). by rewrite (Hresolve σ1 jt t Hjt).
Qed.

(** C1, as the code has it. For every model, deserializing the
    serialized model returns and yields the same display name,
    identifier, category and context, a service list of the same length,
    and position by position the same UUID, subtype and characteristics.
    Position by position the sets of linked-service composite keys are
    the same as well when the composite keys of the model's services are
    pairwise distinct, none of them is spelled "subtype" or "__proto__",
    and every linked service is a service of the model without a
    subtype. *)
Theorem round_trip_distinct_keys (this this0 : PlatformAccessory.t)
    (σ σ0 : Store) :
  let r := _configFromData (_dictionaryPresentation this σ) this0 σ0 in
  r.1.1 = Return tt
  ∧ displayName r.1.2 = displayName this
  ∧ UUID r.1.2 = UUID this
  ∧ category r.1.2 = category this
  ∧ context r.1.2 = context this
  ∧ length (services r.1.2) = length (services this)
  ∧ (∀ i a a', services this !! i = Some a → services r.1.2 !! i = Some a' →
       Service.UUID (cell r.2 a') = Service.UUID (cell σ a)
       ∧ Service.subtype (cell r.2 a') = Service.subtype (cell σ a)
       ∧ Service.characteristics (cell r.2 a') = Service.characteristics (cell σ a))
  ∧ (NoDup ((λ a, Service.key (cell σ a)) <$> services this) →
     (∀ a, a ∈ services this → Service.key (cell σ a) ≠ "subtype"
                               ∧ Service.key (cell σ a) ≠ "__proto__") →
     (∀ a link, a ∈ services this → link ∈ Service.linkedServices (cell σ a) →
        ∃ t, link = inl t ∧ t ∈ services this
             ∧ truthy (Service.subtype (cell σ t)) = false) →
     ∀ i a a', services this !! i = Some a → services r.1.2 !! i = Some a' →
       ∀ k, k ∈ link_key r.2 <$> Service.linkedServices (cell r.2 a')
            ↔ k ∈ link_key σ <$> Service.linkedServices (cell σ a)).
Proof.
  intros r.
  destruct (round_trip_fields this this0 σ σ0)
    as (Hreturn & Hdn & Hid & Hcat & Hctx & Hservices & Hcells).
  do 5 (split; [done|]).
  split; [subst r; by rewrite Hservices, length_seq|].
  split.
  - intros i a a' Ha Ha'. subst r. rewrite Hservices in Ha'.
    apply lookup_seq in Ha' as [-> Hlt].
    destruct (unlinked_fields _ _ (Hcells i a Ha)) as (_ & Hu & Hst & Hcs).
    split; [done|]. split; [done|].
    by rewrite Hcs, reconstructed_characteristics.
  - intros Hnodup Hsub Hlinked.
    apply (round_trip_keeps_links this this0 σ σ0 Hnodup Hsub Hlinked).
Qed.

Lemma round_trip_distinct_keys_witness :
  let σ := store_of [service_A_linked_to [1]; service_B] in
  let this := accessory_with [0; 1] in
  let r := _configFromData (_dictionaryPresentation this σ)
             (accessory_with []) empty_store in
  length (services r.1.2) = length (services this)
  ∧ ∀ i a a', services this !! i = Some a → services r.1.2 !! i = Some a' →
      ∀ k, k ∈ link_key r.2 <$> Service.linkedServices (cell r.2 a')
           ↔ k ∈ link_key σ <$> Service.linkedServices (cell σ a).
Proof.
  destruct (round_trip_distinct_keys (accessory_with [0; 1]) (accessory_with [])
              (store_of [service_A_linked_to [1]; service_B]) empty_store)
    as (_ & _ & _ & _ & _ & Hlen & _ & Hlinks).
  split; [exact Hlen|]. apply Hlinks.
  - compute_done.
  - refine (proj1 (list.Forall_forall
             (λ a, Service.key (cell (store_of [service_A_linked_to [1]; service_B]) a)
                   ≠ "subtype"
                   ∧ Service.key (cell (store_of [service_A_linked_to [1]; service_B]) a)
                     ≠ "__proto__") [0; 1]) _).
    compute_done.
  - intros a link Ha.
    revert link. refine (proj1 (list.Forall_forall
             (λ link, ∃ t, link = inl t ∧ t ∈ [0; 1]
                   ∧ truthy (Service.subtype
                               (cell (store_of [service_A_linked_to [1]; service_B]) t))
                     = false)
             (Service.linkedServices
                (cell (store_of [service_A_linked_to [1]; service_B]) a))) _).
    revert a Ha. refine (proj1 (list.Forall_forall
             (λ a, Forall
                     (λ link, ∃ t, link = inl t ∧ t ∈ [0; 1]
                           ∧ truthy (Service.subtype
                                       (cell (store_of [service_A_linked_to [1]; service_B]) t))
                             = false)
                     (Service.linkedServices
                        (cell (store_of [service_A_linked_to [1]; service_B]) a)))
             [0; 1]) _).
    repeat constructor. exists 1. repeat split. by right; left.
Defined.

(** C1 as stated fails where two composite keys collide. The services
    "AB" (no subtype) and "A" with subtype "B" can be added to one model,
    and both have the key "AB"; the later one takes over the entry of
    [linkedServices] and of the lookup, so the link of the first to "C"
    is lost on the way back. *)
Lemma round_trip_loses_links_on_colliding_keys :
  let σ := store_of [service_AB_linked_to [2]; service_A_B; service_C] in
  let this := accessory_with [0; 1; 2] in
  let r := _configFromData (_dictionaryPresentation this σ)
             (accessory_with []) empty_store in
  addService (Instance 0) (accessory_with []) σ = (Return 0, accessory_with [0], σ)
  ∧ addService (Instance 1) (accessory_with [0]) σ = (Return 1, accessory_with [0; 1], σ)
  ∧ addService (Instance 2) (accessory_with [0; 1]) σ = (Return 2, this, σ)
  ∧ Dictionary.linkedServices (_dictionaryPresentation this σ)
    = Some [("AB", []); ("C", [])]
  ∧ r.1.1 = Return tt
  ∧ services this !! 0 = Some 0
  ∧ services r.1.2 !! 0 = Some 0
  ∧ link_key σ <$> Service.linkedServices (cell σ 0) = ["C"]
  ∧ link_key r.2 <$> Service.linkedServices (cell r.2 0) = []
  ∧ ¬ (∀ k, k ∈ link_key r.2 <$> Service.linkedServices (cell r.2 0)
            ↔ k ∈ link_key σ <$> Service.linkedServices (cell σ 0)).
Proof.
  repeat split. intros Hsame.
  apply (elem_of_nil "C"), (Hsame "C"). by left.
Qed.

(** C2, at the input where the code leaves it: the service "A" is linked
    to the service "B" with subtype "x", whose composite key is "Bx"; the
    serializer emits the bare "B" for it. *)
Theorem _dictionaryPresentation_drops_target_subtype :
  let σ := store_of [service_A_linked_to [1]; service_B_x] in
  let this := accessory_with [0; 1] in
  Service.linkedServices (cell σ 0) = [inl 1]
  ∧ Service.key (cell σ 1) = "Bx"
  ∧ Dictionary.linkedServices (_dictionaryPresentation this σ)
    = Some [("A", ["B"]); ("Bx", [])].
Proof. repeat split. Qed.

(** The example of the spec: "A" linked to "B", neither with a subtype,
    serializes to [{"A": ["B"], "B": []}] and comes back with the link. *)
Example round_trip_of_the_spec_example :
  let σ := store_of [service_A_linked_to [1]; service_B] in
  let d := _dictionaryPresentation (accessory_with [0; 1]) σ in
  let r := _configFromData d (accessory_with []) empty_store in
  Dictionary.linkedServices d = Some [("A", ["B"]); ("B", [])]
  ∧ services r.1.2 = [0; 1]
  ∧ Service.linkedServices (cell r.2 0) = [inl 1]
  ∧ Service.key (cell r.2 1) = "B".
Proof. repeat split. Qed.

(** The same defect seen through the round trip: the emitted "B"
    resolves to nothing, and the link is gone. *)
Example round_trip_loses_link_to_subtyped_target :
  let σ := store_of [service_A_linked_to [1]; service_B_x] in
  let r := _configFromData (_dictionaryPresentation (accessory_with [0; 1]) σ)
             (accessory_with []) empty_store in
  Service.linkedServices (cell r.2 0) = [].
Proof. reflexivity. Qed.

(** A service whose composite key is "__proto__" gets no entry in
    [linkedServices]: the list of its target keys becomes the prototype
    of the mapping, and on the way back the service is the prototype of
    the lookup, under no key; the link it had is lost. *)
Example round_trip_with_proto_key :
  let σ := store_of [Service.set_linkedServices [inl 1]
                       (Service.new (Some "p") "__proto__" None);
                     service_B] in
  let d := _dictionaryPresentation (accessory_with [0; 1]) σ in
  let r := _configFromData d (accessory_with []) empty_store in
  Dictionary.linkedServices d = Some [("B", [])]
  ∧ Dictionary.linkedServices_prototype d = Some ["B"]
  ∧ visited d = [("B", []); ("0", ["B"])]
  ∧ r.1.1 = Return tt
  ∧ Service.linkedServices (cell r.2 0) = [].
Proof. repeat split. Qed.
(** * More of the code *)

(** ** What a successful addService has checked *)

Lemma addService_check_None (σ : Store) (service : Service.t) (l : list addr) :
  addService_check σ service l = None →
  ∀ a, a ∈ l → Service.UUID (cell σ a) = Service.UUID service →
    ∃ mine theirs,
      Service.subtype service = Some mine ∧ mine ≠ ""
      ∧ Service.subtype (cell σ a) = Some theirs ∧ theirs ≠ mine.
Proof.
  induction l as [|x rest IH]; intros Hcheck a Ha Hu.
  - by apply elem_of_nil in Ha.
  - simpl in Hcheck. case_bool_decide as Hx.
    + destruct (truthy (Service.subtype service)) eqn:Hst; [|done].
      destruct (Service.subtype service) as [mine|] eqn:Hmine; [|done].
      simpl in Hcheck.
      destruct (Service.subtype (cell σ x)) as [theirs|] eqn:Htheirs; [|done].
      simpl in Hcheck. case_bool_decide as Hsame; [done|].
      apply elem_of_cons in Ha as [->|Ha].
      * exists mine, theirs. split; [done|].
        split; [by apply truthy_Some|]. split; [done | congruence].
      * by apply IH.
    + apply elem_of_cons in Ha as [->|Ha]; [done | by apply IH].
Qed.

(** The two ways [addService] ends, read backwards. *)
Lemma addService_Return (arg : serviceArgument) (this this' : PlatformAccessory.t)
    (σ σ' : Store) (s : addr) :
  addService arg this σ = (Return s, this', σ') →
  addService_argument arg σ = (s, σ')
  ∧ addService_check σ' (cell σ' s) (services this) = None
  ∧ services this' = services this ++ [s]
  ∧ reachable this' = reachable this
  ∧ _associatedHAPAccessory this'
    = Accessory.addService s <$> _associatedHAPAccessory this.
Proof.
  unfold addService. destruct (addService_argument arg σ) as [s1 σ1].
  destruct (addService_check σ1 (cell σ1 s1) (services this)) eqn:Hcheck;
    [done|].
  intros [= <- <- <-]. split; [reflexivity|]. split; [exact Hcheck|].
  destruct (_associatedHAPAccessory this) eqn:Hh; simpl; by rewrite ?Hh.
Qed.


Lemma addService_present (service : addr) (this : PlatformAccessory.t)
    (σ : Store) :
  service ∈ services this →
  ∃ e, addService (Instance service) this σ = (Throw e, this, σ).
Proof.
  intros Hin. unfold addService. simpl.
  destruct (addService_check σ (cell σ service) (services this)) as [e|] eqn:Hcheck;
    [by exists e|].
  destruct (addService_check_None σ _ _ Hcheck service Hin eq_refl)
    as (mine & theirs & Hm & _ & Ht & Hne).
  congruence.
Qed.

(** X3. [addService] never puts an object into the list twice: called
    with a service object that is already in the model it throws, and the
    model and the store stay as they were. *)
Theorem addService_never_adds_twice (service : addr)
    (this : PlatformAccessory.t) (σ : Store) :
  service ∈ services this →
  ∃ e, addService (Instance service) this σ = (Throw e, this, σ)
       ∧ ∀ this' σ' s, addService (Instance service) this σ ≠ (Return s, this', σ').
Proof.
  intros Hin. destruct (addService_present service this σ Hin) as [e He].
  exists e. split; [done|]. intros this' σ' s. rewrite He. done.
Qed.

Lemma addService_never_adds_twice_witness :
  ∃ e, addService (Instance 1) (accessory_with [0; 1])
         (store_of [first_light; second_light])
       = (Throw e, accessory_with [0; 1], store_of [first_light; second_light])
       ∧ ∀ this' σ' s,
           addService (Instance 1) (accessory_with [0; 1])
             (store_of [first_light; second_light]) ≠ (Return s, this', σ').
Proof.
  apply (addService_never_adds_twice 1 (accessory_with [0; 1])
           (store_of [first_light; second_light])).
  compute_done.
Defined.

(** ** The invariant of the service registry *)

Lemma registry_invariant_ext (σ σ' : Store) (l : list addr) :
  (∀ a, a ∈ l → cell σ' a = cell σ a) →
  registry_invariant σ l → registry_invariant σ' l.
Proof.
  intros Hsame Hinv i j a b Hij Ha Hb.
  rewrite (Hsame a), (Hsame b) by (apply list_elem_of_lookup; eauto).
  by apply (Hinv i j).
Qed.

Lemma registry_invariant_snoc (σ : Store) (l : list addr) (s : addr) :
  registry_invariant σ l →
  addService_check σ (cell σ s) l = None →
  registry_invariant σ (l ++ [s]).
Proof.
  intros Hinv Hcheck i j a b Hij Ha Hb Hu.
  destruct (decide (j < length l)) as [Hj|Hj].
  - rewrite lookup_app_l in Ha, Hb by lia. by apply (Hinv i j).
  - assert (j = length l) as ->.
    { apply lookup_lt_Some in Hb. rewrite length_app in Hb. simpl in Hb. lia. }
    rewrite lookup_app_l in Ha by lia.
    rewrite lookup_app_r, Nat.sub_diag in Hb by lia. injection Hb as <-.
    apply (addService_check_None σ _ _ Hcheck a); [|done].
    apply list_elem_of_lookup. eauto.
Qed.

Lemma registry_invariant_remove (σ : Store) (before after : list addr) (x : addr) :
  registry_invariant σ (before ++ x :: after) →
  registry_invariant σ (before ++ after).
Proof.
  intros Hinv i j a b Hij Ha Hb.
  set (up := λ k, if decide (k < length before) then k else S k).
  assert (Hup : ∀ k c, (before ++ after) !! k = Some c →
                       (before ++ x :: after) !! up k = Some c).
  { intros k c Hk. unfold up. case_decide as Hlt.
    - rewrite lookup_app_l in Hk |- * by lia. done.
    - rewrite lookup_app_r in Hk |- * by lia.
      replace (S k - length before) with (S (k - length before)) by lia. done. }
  apply (Hinv (up i) (up j)); [|by apply Hup..].
  unfold up. repeat case_decide; lia.
Qed.

Lemma registry_invariant_NoDup (σ : Store) (l : list addr) :
  registry_invariant σ l → NoDup l.
Proof.
  intros Hinv. apply NoDup_alt. intros i j a Hi Hj.
  destruct (Nat.lt_trichotomy i j) as [Hlt|[Heq|Hgt]]; [|done|].
  - destruct (Hinv i j a a Hlt Hi Hj eq_refl) as (m & t & Hm & _ & Ht & Hne).
    congruence.
  - destruct (Hinv j i a a Hgt Hj Hi eq_refl) as (m & t & Hm & _ & Ht & Hne).
    congruence.
Qed.

Lemma allocated_alloc_frame (s : Service.t) (σ : Store) (a : addr) :
  allocated σ a → cell (alloc s σ).2 a = cell σ a ∧ allocated (alloc s σ).2 a.
Proof.
  unfold allocated. intros Ha. simpl. split; [|lia].
  apply fn_lookup_insert_ne. lia.
Qed.

Lemma addService_keeps (arg : serviceArgument) (this this' : PlatformAccessory.t)
    (σ σ' : Store) (s : addr) :
  registry_invariant σ (services this) →
  Forall (allocated σ) (services this) →
  match arg with Instance a => allocated σ a | Constructor _ _ => True end →
  addService arg this σ = (Return s, this', σ') →
  registry_invariant σ' (services this')
  ∧ Forall (allocated σ') (services this').
Proof.
  intros Hinv Hall Harg Hadd.
  apply addService_Return in Hadd as (Hres & Hcheck & -> & _).
  assert (Hold : (∀ a, a ∈ services this → cell σ' a = cell σ a)
                 ∧ Forall (allocated σ') (services this) ∧ allocated σ' s).
  { destruct arg as [a|f args]; simpl in Hres.
    - injection Hres as <- <-. done.
    - injection Hres as <- <-. rewrite list.Forall_forall in Hall.
      split; [|split].
      + intros a Ha. by apply allocated_alloc_frame, Hall.
      + apply list.Forall_forall. intros a Ha.
        by apply allocated_alloc_frame, Hall.
      + unfold allocated. simpl. lia. }
  destruct Hold as (Hsame & Hall' & Hs). split.
  - apply registry_invariant_snoc; [|done].
    by apply (registry_invariant_ext σ).
  - apply Forall_app. split; [done|]. by apply Forall_singleton.
Qed.

Lemma registry_invariant_identities (σ : Store) (l : list addr) (a b : addr) :
  registry_invariant σ l → a ∈ l → b ∈ l → a ≠ b →
  ¬ (Service.UUID (cell σ a) = Service.UUID (cell σ b)
     ∧ Service.subtype (cell σ a) = Service.subtype (cell σ b)).
Proof.
  intros Hinv [i Hi]%list_elem_of_lookup [j Hj]%list_elem_of_lookup Hne [Hu Hst].
  destruct (Nat.lt_trichotomy i j) as [Hlt|[->|Hgt]].
  - destruct (Hinv i j a b Hlt Hi Hj Hu) as (m & t & Hm & _ & Ht & Hd). congruence.
  - congruence.
  - destruct (Hinv j i b a Hgt Hj Hi (eq_sym Hu)) as (m & t & Hm & _ & Ht & Hd).
    congruence.
Qed.

Lemma registry_invariant_short (σ : Store) (l : list addr) :
  length l ≤ 1 → registry_invariant σ l.
Proof.
  intros Hlen i j a b Hij _ Hb%lookup_lt_Some. lia.
Qed.

(** X4. [addService] keeps the registry well formed. If, of any two
    listed services with one UUID, the later has a non-empty subtype and
    the earlier a different subtype, the same holds of the list after a
    successful [addService]; no object is listed twice and no two listed
    services share both UUID and subtype. *)
Theorem addService_keeps_registry_invariant (arg : serviceArgument)
    (this this' : PlatformAccessory.t) (σ σ' : Store) (s : addr) :
  registry_invariant σ (services this) →
  Forall (allocated σ) (services this) →
  match arg with Instance a => allocated σ a | Constructor _ _ => True end →
  addService arg this σ = (Return s, this', σ') →
  registry_invariant σ' (services this')
  ∧ Forall (allocated σ') (services this')
  ∧ NoDup (services this')
  ∧ ∀ a b, a ∈ services this' → b ∈ services this' → a ≠ b →
      ¬ (Service.UUID (cell σ' a) = Service.UUID (cell σ' b)
         ∧ Service.subtype (cell σ' a) = Service.subtype (cell σ' b)).
Proof.
  intros Hinv Hall Harg Hadd.
  destruct (addService_keeps arg this this' σ σ' s Hinv Hall Harg Hadd)
    as [Hinv' Hall'].
  split; [done|]. split; [done|].
  split; [by apply (registry_invariant_NoDup σ')|].
  intros a b. by apply registry_invariant_identities.
Qed.

Lemma addService_keeps_registry_invariant_witness :
  let σ := store_of [first_light; second_light] in
  let this' := accessory_with [0; 1] in
  registry_invariant σ (services this')
  ∧ Forall (allocated σ) (services this')
  ∧ NoDup (services this')
  ∧ ∀ a b, a ∈ services this' → b ∈ services this' → a ≠ b →
      ¬ (Service.UUID (cell σ a) = Service.UUID (cell σ b)
         ∧ Service.subtype (cell σ a) = Service.subtype (cell σ b)).
Proof.
  apply (addService_keeps_registry_invariant (Instance 1) (accessory_with [0])
           (accessory_with [0; 1]) (store_of [first_light; second_light])
           (store_of [first_light; second_light]) 1).
  - apply registry_invariant_short. simpl. lia.
  - repeat constructor.
  - unfold allocated. simpl. lia.
  - reflexivity.
Defined.

Lemma constructor_store (isValid : string → bool) (dn u : string)
    (cat : option Category) (σ : Store) :
  dn ≠ "" → u ≠ "" → isValid u = true →
  ∃ m σ', constructor isValid (Some dn) (Some u) cat σ = Return (m, σ')
    ∧ services m = [next σ]
    ∧ _associatedHAPAccessory m = None
    ∧ next σ' = S (next σ)
    ∧ ∀ a, a ≠ next σ → cell σ' a = cell σ a.
Proof.
  intros Hdn Hu Hv. unfold constructor.
  destruct dn as [|c dn]; [done|]. destruct u as [|d u]; [done|].
  rewrite Hv. simpl negb. cbv iota.
  eexists _, _. split; [reflexivity|].
  repeat split; simpl.
  intros a Ha. unfold mutate; simpl.
  rewrite !fn_lookup_alter_ne by done. by apply fn_lookup_insert_ne.
Qed.

Lemma constructor_Return (isValid : string → bool) (dn u : option string)
    (cat : option Category) (σ σ' : Store) (m : PlatformAccessory.t) :
  constructor isValid dn u cat σ = Return (m, σ') →
  ∃ d s, dn = Some d ∧ u = Some s ∧ d ≠ "" ∧ s ≠ "" ∧ isValid s = true.
Proof.
  intros Hr. destruct (arguments_valid_or_invalid isValid dn u) as [Hinv|Hok];
    [|done].
  destruct (constructor_invalid isValid dn u cat σ Hinv) as (e & He & _).
  congruence.
Qed.

(** X5. Construction starts the registry well formed and touches nothing
    that existed: the new model lists one freshly created service and has
    no collaborator, so that nothing is mirrored yet, the invariant of
    the registry holds, and every object that was in the store keeps its
    state. *)
Theorem constructor_starts_registry (isValid : string → bool)
    (dn u : option string) (cat : option Category) (σ σ' : Store)
    (m : PlatformAccessory.t) :
  constructor isValid dn u cat σ = Return (m, σ') →
  services m = [next σ]
  ∧ registry_invariant σ' (services m)
  ∧ Forall (allocated σ') (services m)
  ∧ _associatedHAPAccessory m = None
  ∧ mirrored m
  ∧ next σ' = S (next σ)
  ∧ ∀ a, allocated σ a → cell σ' a = cell σ a.
Proof.
  intros Hr.
  destruct (constructor_Return isValid dn u cat σ σ' m Hr)
    as (d & s & -> & -> & Hd & Hs & Hv).
  destruct (constructor_store isValid d s cat σ Hd Hs Hv)
    as (m1 & σ1 & Hr1 & Hservices & Hhap & Hnext & Hframe).
  rewrite Hr in Hr1. injection Hr1 as <- <-.
  rewrite Hservices. split; [done|].
  split; [apply registry_invariant_short; simpl; lia|].
  split; [apply Forall_singleton; unfold allocated; lia|].
  split; [done|].
  split; [unfold mirrored; by rewrite Hhap|].
  split; [done|].
  intros a Ha. apply Hframe. unfold allocated in Ha. lia.
Qed.

Lemma constructor_starts_registry_witness :
  ∃ m σ',
    constructor uuid_isValid (Some "Lamp")
      (Some "9a8b7c6d-0000-4000-8000-0026bb765291") None
      (store_of [light]) = Return (m, σ')
    ∧ services m = [1]
    ∧ registry_invariant σ' (services m)
    ∧ _associatedHAPAccessory m = None
    ∧ cell σ' 0 = light.
Proof.
  eexists _, _. split; [reflexivity|].
  destruct (constructor_starts_registry uuid_isValid (Some "Lamp")
              (Some "9a8b7c6d-0000-4000-8000-0026bb765291") None
              (store_of [light]) _ _ eq_refl)
    as (Hs & Hinv & _ & Hhap & _ & _ & Hframe).
  split; [exact Hs|]. split; [exact Hinv|]. split; [exact Hhap|].
  apply (Hframe 0). unfold allocated. simpl. lia.
Defined.

(** X6. [removeService] keeps the registry well formed, whether or not
    the service was listed, and never makes the list longer. *)
Theorem removeService_keeps_registry_invariant (service : addr)
    (this : PlatformAccessory.t) (σ : Store) :
  registry_invariant σ (services this) →
  Forall (allocated σ) (services this) →
  registry_invariant σ (services (removeService service this))
  ∧ Forall (allocated σ) (services (removeService service this))
  ∧ length (services (removeService service this))
    = length (services this) - (if bool_decide (service ∈ services this) then 1 else 0).
Proof.
  intros Hinv Hall. case_bool_decide as Hin.
  - destruct (removeService_present service this Hin)
      as (before & after & Heq & _ & ->).
    rewrite Heq in Hinv, Hall |- *. split; [|split].
    + by apply (registry_invariant_remove σ before after service).
    + apply Forall_app in Hall as [Hb Ha]. apply list.Forall_cons in Ha as [_ Ha].
      by apply Forall_app.
    + rewrite !length_app. simpl. lia.
  - rewrite (removeService_absent service this Hin).
    split; [done|]. split; [done | lia].
Qed.

Lemma removeService_keeps_registry_invariant_witness :
  let σ := store_of [first_light; second_light] in
  registry_invariant σ (services (removeService 0 (accessory_with [0; 1])))
  ∧ Forall (allocated σ) (services (removeService 0 (accessory_with [0; 1])))
  ∧ length (services (removeService 0 (accessory_with [0; 1]))) = 1.
Proof.
  apply (removeService_keeps_registry_invariant 0 (accessory_with [0; 1])
           (store_of [first_light; second_light])).
  - apply (registry_invariant_snoc _ [0] 1);
      [apply registry_invariant_short; simpl; lia | reflexivity].
  - repeat constructor.
Defined.

(** ** Composite keys of a well-formed registry *)

Lemma append_inj_same_length (u1 u2 s1 s2 : string) :
  String.length u1 = String.length u2 →
  u1 +:+ s1 = u2 +:+ s2 → u1 = u2 ∧ s1 = s2.
Proof.
  revert u2. induction u1 as [|c u1 IH]; intros [|d u2] Hlen Happ;
    try discriminate Hlen.
  - done.
  - change (String c (u1 +:+ s1) = String d (u2 +:+ s2)) in Happ.
    injection Happ as -> Happ. injection Hlen as Hlen.
    destruct (IH u2 Hlen Happ) as [-> ->]. done.
Qed.

Lemma append_length (a b : string) :
  String.length (a +:+ b) = String.length a + String.length b.
Proof.
  induction a as [|c a IH]; [done|].
  change (S (String.length (a +:+ b)) = S (String.length a + String.length b)).
  by rewrite IH.
Qed.

Lemma or_empty_Some (s : string) : or_empty (Some s) = s.
Proof.
  unfold or_empty, truthy. case_bool_decide as Hs; simpl; [by subst s | done].
Qed.

Lemma registry_keys_NoDup (σ : Store) (l : list addr) (n : nat) :
  registry_invariant σ l →
  (∀ a, a ∈ l → String.length (Service.UUID (cell σ a)) = n) →
  NoDup ((λ a, Service.key (cell σ a)) <$> l).
Proof.
  intros Hinv Hlen. apply NoDup_alt. intros i j k Hi Hj.
  rewrite list_lookup_fmap in Hi, Hj.
  destruct (l !! i) as [a|] eqn:Ha; [|done].
  destruct (l !! j) as [b|] eqn:Hb; [|done].
  injection Hi as Hi. injection Hj as Hj.
  assert (Hsplit : Service.UUID (cell σ a) = Service.UUID (cell σ b)
                   ∧ or_empty (Service.subtype (cell σ a))
                     = or_empty (Service.subtype (cell σ b))).
  { apply append_inj_same_length; [|unfold Service.key in Hi, Hj; congruence].
    rewrite (Hlen a), (Hlen b) by (apply list_elem_of_lookup; eauto). done. }
  destruct Hsplit as [Hu Hst].
  destruct (Nat.lt_trichotomy i j) as [Hlt|[Heq|Hgt]]; [|done|].
  - destruct (Hinv i j a b Hlt Ha Hb Hu) as (m & t & Hm & _ & Ht & Hd).
    rewrite Hm, Ht, !or_empty_Some in Hst. done.
  - destruct (Hinv j i b a Hgt Hb Ha (eq_sym Hu)) as (m & t & Hm & _ & Ht & Hd).
    rewrite Hm, Ht, !or_empty_Some in Hst. done.
Qed.

(** X7. In a well-formed registry whose service UUIDs all have one
    length, the composite keys [UUID + (subtype || "")] of the services
    are pairwise distinct: no two listed services share an entry of
    [linkedServices] or of the lookup built by [_configFromData]. *)
Theorem registry_composite_keys_distinct (σ : Store) (l : list addr) (n : nat) :
  registry_invariant σ l →
  (∀ a, a ∈ l → String.length (Service.UUID (cell σ a)) = n) →
  NoDup ((λ a, Service.key (cell σ a)) <$> l)
  ∧ ∀ i j a b, l !! i = Some a → l !! j = Some b →
      Service.key (cell σ a) = Service.key (cell σ b) → i = j.
Proof.
  intros Hinv Hlen.
  pose proof (registry_keys_NoDup σ l n Hinv Hlen) as Hnodup.
  split; [done|]. intros i j a b Ha Hb Hk.
  by apply (NoDup_fmap_lookup_inj (λ a, Service.key (cell σ a)) l i j a b).
Qed.

Lemma registry_composite_keys_distinct_witness :
  let σ := store_of [first_light; second_light] in
  NoDup ((λ a, Service.key (cell σ a)) <$> [0; 1])
  ∧ ∀ i j a b, [0; 1] !! i = Some a → [0; 1] !! j = Some b →
      Service.key (cell σ a) = Service.key (cell σ b) → i = j.
Proof.
  apply (registry_composite_keys_distinct
           (store_of [first_light; second_light]) [0; 1] 36).
  - apply (registry_invariant_snoc _ [0] 1);
      [apply registry_invariant_short; simpl; lia | reflexivity].
  - refine (proj1 (list.Forall_forall
      (λ a, String.length
              (Service.UUID (cell (store_of [first_light; second_light]) a)) = 36)
      [0; 1]) _).
    repeat constructor.
Defined.

(** X8. The round trip keeps the links of a model built through the
    registry: when the registry is well formed, every service UUID has
    the 36 characters of a UUID and every linked service is a service of
    the model without a subtype, deserializing the serialized model
    returns and each reconstructed service links to services with the
    same composite keys as the original. *)
Theorem round_trip_of_registry (this this0 : PlatformAccessory.t)
    (σ σ0 : Store) :
  registry_invariant σ (services this) →
  (∀ a, a ∈ services this → String.length (Service.UUID (cell σ a)) = 36) →
  (∀ a link, a ∈ services this → link ∈ Service.linkedServices (cell σ a) →
     ∃ t, link = inl t ∧ t ∈ services this
          ∧ truthy (Service.subtype (cell σ t)) = false) →
  let r := _configFromData (_dictionaryPresentation this σ) this0 σ0 in
  r.1.1 = Return tt
  ∧ ∀ i a a', services this !! i = Some a → services r.1.2 !! i = Some a' →
      ∀ k, k ∈ link_key r.2 <$> Service.linkedServices (cell r.2 a')
           ↔ k ∈ link_key σ <$> Service.linkedServices (cell σ a).
Proof.
  intros Hinv Hlen Hlinked r. split; [apply round_trip_returns|].
  assert (Hlong : ∀ b text, b ∈ services this → String.length text < 36 →
            Service.key (cell σ b) ≠ text).
  { intros b text Hb Htext Hkey. apply (f_equal String.length) in Hkey.
    unfold Service.key in Hkey. rewrite append_length, (Hlen b Hb) in Hkey.
    lia. }
  apply (round_trip_keeps_links this this0 σ σ0
           (registry_keys_NoDup σ _ 36 Hinv Hlen)); [|done].
  intros b Hb. split; apply Hlong; try done; simpl; lia.
Qed.

Lemma round_trip_of_registry_witness :
  let σ := store_of [switch_linked_to [1]; light] in
  let this := accessory_with [0; 1] in
  let r := _configFromData (_dictionaryPresentation this σ)
             (accessory_with []) empty_store in
  Service.linkedServices (cell σ 0) = [inl 1]
  ∧ r.1.1 = Return tt
  ∧ ∀ i a a', services this !! i = Some a → services r.1.2 !! i = Some a' →
      ∀ k, k ∈ link_key r.2 <$> Service.linkedServices (cell r.2 a')
           ↔ k ∈ link_key σ <$> Service.linkedServices (cell σ a).
Proof.
  split; [reflexivity|].
  apply (round_trip_of_registry (accessory_with [0; 1]) (accessory_with [])
           (store_of [switch_linked_to [1]; light]) empty_store).
  - apply (registry_invariant_snoc _ [0] 1);
      [apply registry_invariant_short; simpl; lia | reflexivity].
  - refine (proj1 (list.Forall_forall
      (λ a, String.length
              (Service.UUID (cell (store_of [switch_linked_to [1]; light]) a)) = 36)
      [0; 1]) _).
    repeat constructor.
  - intros a link Ha.
    revert link. refine (proj1 (list.Forall_forall
             (λ link, ∃ t, link = inl t ∧ t ∈ [0; 1]
                   ∧ truthy (Service.subtype
                               (cell (store_of [switch_linked_to [1]; light]) t))
                     = false)
             (Service.linkedServices
                (cell (store_of [switch_linked_to [1]; light]) a))) _).
    revert a Ha. refine (proj1 (list.Forall_forall
             (λ a, Forall
                     (λ link, ∃ t, link = inl t ∧ t ∈ [0; 1]
                           ∧ truthy (Service.subtype
                                       (cell (store_of [switch_linked_to [1]; light]) t))
                             = false)
                     (Service.linkedServices
                        (cell (store_of [switch_linked_to [1]; light]) a)))
             [0; 1]) _).
    repeat constructor. exists 1. repeat split. by right; left.
Defined.

(** ** Adding, looking up and removing *)

Lemma getServiceByUUIDAndSubType_loop_app (σ : Store) (name : selector)
    (subtype : option string) (l : list addr) (s : addr) :
  (∀ a, a ∈ l → selects name (cell σ a)
                 && bool_decide (Service.subtype (cell σ a) = subtype) = false) →
  selects name (cell σ s) = true → Service.subtype (cell σ s) = subtype →
  getServiceByUUIDAndSubType_loop σ name subtype (l ++ [s]) = Some s.
Proof.
  intros Hnone Hsel Hst. induction l as [|a rest IH]; simpl.
  - by rewrite Hsel, bool_decide_eq_true_2.
  - rewrite (Hnone a) by (by left). apply IH. intros b Hb. apply Hnone. by right.
Qed.

(** X9. What [addService] has added, [getServiceByUUIDAndSubType] finds:
    after a successful [addService], the lookup by a function whose
    [UUID] is the added service's, with the added service's subtype,
    returns the added service, provided the listed instances of that
    function carry that UUID. *)
Theorem addService_then_getServiceByUUIDAndSubType (arg : serviceArgument)
    (this this' : PlatformAccessory.t) (σ σ' : Store) (s : addr)
    (f : Service.ctor) :
  addService arg this σ = (Return s, this', σ') →
  Service.ctor_UUID f = Some (Service.UUID (cell σ' s)) →
  (∀ a, a ∈ services this → Service.instanceof (cell σ' a) f = true →
        Service.UUID (cell σ' a) = Service.UUID (cell σ' s)) →
  getServiceByUUIDAndSubType (OfFunction f) (Service.subtype (cell σ' s)) this' σ'
  = Some s.
Proof.
  intros Hadd Hf Hinst.
  apply addService_Return in Hadd as (_ & Hcheck & Hservices & _).
  unfold getServiceByUUIDAndSubType. rewrite Hservices.
  apply getServiceByUUIDAndSubType_loop_app; [| |done].
  - intros a Ha. apply andb_false_iff.
    destruct (selects (OfFunction f) (cell σ' a)) eqn:Hsel; [|by left].
    right. apply bool_decide_eq_false_2. intros Hst.
    assert (Hu : Service.UUID (cell σ' a) = Service.UUID (cell σ' s)).
    { simpl in Hsel. apply orb_true_iff in Hsel as [Hi|Hu].
      - by apply Hinst.
      - apply bool_decide_eq_true_1 in Hu. congruence. }
    destruct (addService_check_None σ' _ _ Hcheck a Ha Hu)
      as (mine & theirs & Hm & _ & Ht & Hne).
    congruence.
  - simpl. apply orb_true_iff. right. by apply bool_decide_eq_true_2.
Qed.

Lemma addService_then_getServiceByUUIDAndSubType_witness :
  getServiceByUUIDAndSubType (OfFunction Lightbulb) (Some "second")
    (accessory_with [0; 1]) (store_of [first_light; second_light])
  = Some 1.
Proof.
  apply (addService_then_getServiceByUUIDAndSubType (Instance 1)
           (accessory_with [0]) (accessory_with [0; 1])
           (store_of [first_light; second_light])
           (store_of [first_light; second_light]) 1 Lightbulb);
    [reflexivity | reflexivity |].
  intros a Ha%list_elem_of_singleton. subst a. discriminate.
Defined.

(** X10. The two lookups agree where they can. When
    [getServiceByUUIDAndSubType] returns a service, [getService] with the
    same selector returns one too, and the same one if that one has the
    requested subtype; when [getService] returns nothing, so does
    [getServiceByUUIDAndSubType] for every subtype. *)
Theorem lookups_agree (name : selector) (subtype : option string)
    (this : PlatformAccessory.t) (σ : Store) :
  (getService name this σ = None →
   getServiceByUUIDAndSubType name subtype this σ = None)
  ∧ (∀ a, getServiceByUUIDAndSubType name subtype this σ = Some a →
       ∃ b, getService name this σ = Some b
            ∧ (Service.subtype (cell σ b) = subtype → b = a))
  ∧ (∀ b, getService name this σ = Some b →
       Service.subtype (cell σ b) = subtype →
       getServiceByUUIDAndSubType name subtype this σ = Some b).
Proof.
  unfold getService, getServiceByUUIDAndSubType.
  induction (services this) as [|x rest (IH1 & IH2 & IH3)]; simpl.
  - split; [done|]. split; [done|]. done.
  - destruct (selects name (cell σ x)) eqn:Hsel; simpl.
    + case_bool_decide as Hst.
      * split; [done|]. split; [|done].
        intros a [= <-]. by exists x.
      * split; [done|]. split.
        -- intros a Ha. exists x. split; [done|]. done.
        -- intros b [= <-] Hb. done.
    + done.
Qed.

Lemma addService_Return_fresh (arg : serviceArgument)
    (this this' : PlatformAccessory.t) (σ σ' : Store) (s : addr) :
  addService arg this σ = (Return s, this', σ') → s ∉ services this.
Proof.
  intros (_ & Hcheck & _)%addService_Return Hin.
  destruct (addService_check_None σ' _ _ Hcheck s Hin eq_refl)
    as (mine & theirs & Hm & _ & Ht & Hne).
  congruence.
Qed.

Lemma remove_first_absent (s : addr) (l : list addr) :
  s ∉ l → Accessory.remove_first s l = l.
Proof.
  induction l as [|x l IH]; [done|]. intros [Hne Hnot]%not_elem_of_cons.
  simpl. rewrite bool_decide_eq_false_2 by done. by rewrite IH.
Qed.

Lemma remove_first_middle (s : addr) (before after : list addr) :
  s ∉ before → Accessory.remove_first s (before ++ s :: after) = before ++ after.
Proof.
  induction before as [|x before IH]; simpl.
  - intros _. by rewrite bool_decide_eq_true_2.
  - intros [Hne Hnot]%not_elem_of_cons.
    rewrite bool_decide_eq_false_2 by done. by rewrite IH.
Qed.

Lemma removeService_unfold (service : addr) (this : PlatformAccessory.t)
    (before after : list addr) :
  services this = before ++ service :: after → service ∉ before →
  removeService service this
  = match _associatedHAPAccessory this with
    | Some h =>
        set_associatedHAPAccessory (Some (Accessory.removeService service h))
          (set_services (before ++ after) this)
    | None => set_services (before ++ after) this
    end.
Proof.
  intros Heq Hnot. unfold removeService.
  pose proof (removeService_find_spec service (services this) 0) as Hfind.
  destruct (removeService_find service (services this) 0) as [[j k]|].
  - destruct Hfind as (b' & a' & Heq' & Hnot' & -> & ->).
    rewrite index_key_truthy. simpl.
    assert (b' = before) as ->.
    { rewrite Heq in Heq'. clear Heq. revert b' Heq' Hnot'.
      induction before as [|x before IH]; intros [|y b'] Heq' Hnot'; simpl in *.
      - done.
      - injection Heq' as -> _. exfalso. apply Hnot'. by left.
      - injection Heq' as -> _. exfalso. apply Hnot. by left.
      - injection Heq' as -> Heq'. f_equal.
        apply IH; [by apply not_elem_of_cons in Hnot as [_ ?] | done |].
        by apply not_elem_of_cons in Hnot' as [_ ?]. }
    rewrite Heq, delete_middle. done.
  - exfalso. apply Hfind. rewrite Heq. apply elem_of_app. right. by left.
Qed.

(** X11. Adding and removing cancel: after a successful [addService],
    [removeService] of the added service gives back the model as it was,
    the list of an attached collaborator that mirrored the model
    included. *)
Theorem addService_then_removeService (arg : serviceArgument)
    (this this' : PlatformAccessory.t) (σ σ' : Store) (s : addr) :
  addService arg this σ = (Return s, this', σ') →
  mirrored this →
  removeService s this' = this.
Proof.
  intros Hadd Hmirror.
  pose proof (addService_Return_fresh _ _ _ _ _ _ Hadd) as Hfresh.
  destruct (addService_Return _ _ _ _ _ _ Hadd) as (_ & _ & Hservices & _ & Hhap).
  rewrite (removeService_unfold s this' (services this) []);
    [|by rewrite Hservices|done].
  rewrite app_nil_r. unfold mirrored in Hmirror.
  unfold addService in Hadd. destruct (addService_argument arg σ) as [s1 σ1].
  destruct (addService_check σ1 (cell σ1 s1) (services this)); [done|].
  injection Hadd as -> <- _.
  destruct this as [dn u c l r ctx pl pf [h|]]; simpl in *; [|done].
  destruct Hmirror as [Hl _]. destruct h as [hdn hu hl hc hr]. simpl in *.
  subst hl. unfold set_associatedHAPAccessory, set_services,
    Accessory.removeService, Accessory.addService. simpl.
  by rewrite (remove_first_middle s l []), app_nil_r.
Qed.

Lemma addService_then_removeService_witness :
  removeService 1 (accessory_with [0; 1]) = accessory_with [0].
Proof.
  apply (addService_then_removeService (Instance 1) (accessory_with [0])
           (accessory_with [0; 1]) (store_of [first_light; second_light])
           (store_of [first_light; second_light]) 1);
    [reflexivity | exact I].
Defined.




(** ** configureCameraSource *)






(** ** The mapping the serializer emits *)

(** X14. What [linkedServices] is, for every model. The serializer emits
    a mapping (no key twice) whose keys are exactly the composite keys of
    the model's services other than "__proto__"; the entry of a key is
    written by the last service that has it and lists one string per
    linked service, the target's UUID followed by one suffix that is the
    same for all of them and is empty as long as no earlier service has
    the composite key "subtype": a target's own subtype never enters it.
    A service whose composite key is "__proto__" leaves no entry: the
    list of the last such service becomes the prototype of the mapping,
    which has none when no service has that key. *)
Theorem _dictionaryPresentation_linkedServices (this : PlatformAccessory.t)
    (σ : Store) :
  ∃ d, Dictionary.linkedServices (_dictionaryPresentation this σ) = Some d
    ∧ NoDup d.*1
    ∧ (∀ k, k ∈ d.*1 ↔ k ≠ "__proto__"
                        ∧ ∃ a, a ∈ services this ∧ Service.key (cell σ a) = k)
    ∧ (∀ i a, services this !! i = Some a →
         (∀ j b, i < j → services this !! j = Some b →
                 Service.key (cell σ b) ≠ Service.key (cell σ a)) →
         ∃ suffix,
           (if bool_decide (Service.key (cell σ a) = "__proto__")
            then Dictionary.linkedServices_prototype (_dictionaryPresentation this σ)
            else Obj.get (Service.key (cell σ a)) d)
           = Some ((λ linked, linked_UUID σ linked +:+ suffix)
                     <$> Service.linkedServices (cell σ a))
           ∧ ((∀ j b, j < i → services this !! j = Some b →
                      Service.key (cell σ b) ≠ "subtype") →
              suffix = ""))
    ∧ ((∀ a, a ∈ services this → Service.key (cell σ a) ≠ "__proto__") →
       Dictionary.linkedServices_prototype (_dictionaryPresentation this σ) = None).
Proof.
  destruct (_dictionaryPresentation_mapping this σ)
    as (sps & d & p & Hfold & Hd & Hp).
  destruct (_dictionaryPresentation_links_loop σ (services this) [] [] None
              sps d p Hfold) as (Hkeys & Hnodup & _ & Hlast & Hproto).
  exists d. rewrite Hp. split; [done|].
  split; [apply Hnodup; constructor|]. split.
  - intros k. rewrite Hkeys. split; [|by right].
    intros [Hk|?]; [by apply elem_of_nil in Hk | done].
  - split; [|done].
    intros i a Ha Hlater. destruct (Hlast i a Ha Hlater) as (suffix & Hget & Hempty).
    exists suffix. split; [done|]. intros Hearlier. by apply Hempty.
Qed.

(** ** From a dictionary and back *)

Lemma characteristicPresentation_hapCharacteristic
    (cp : CharacteristicPresentation.t) :
  characteristicPresentation (hapCharacteristic cp) = cp.
Proof. by destruct cp. Qed.

Lemma servicePresentation_reconstructed (σ : Store) (a : addr)
    (sp : ServicePresentation.t) :
  unlinked (cell σ a) = unlinked (reconstructed sp) →
  servicePresentation σ a = sp.
Proof.
  intros (Hdn & Hu & Hst & Hcs)%unlinked_fields.
  unfold servicePresentation. rewrite Hdn, Hu, Hst, Hcs.
  destruct sp as [dn u st cs]. simpl. f_equal.
  rewrite <- list_fmap_compose. rewrite <- (list_fmap_id cs) at 2.
  apply list_fmap_ext. intros _ cp _.
  apply characteristicPresentation_hapCharacteristic.
Qed.

(** X15. Decoding and encoding again gives the dictionary back, links
    apart: for every dictionary, serializing the model that
    [_configFromData] leaves behind yields the same plugin, platform,
    display name, UUID, category and context, whether the call returned
    or threw, and when it returned the very same list of services,
    characteristics included. A call that throws throws a TypeError and
    leaves the model with the service list it had. *)
Theorem _dictionaryPresentation_of_configFromData (data : Dictionary.t)
    (this : PlatformAccessory.t) (σ : Store) :
  let r := _configFromData data this σ in
  let d := _dictionaryPresentation r.1.2 r.2 in
  Dictionary.plugin d = Dictionary.plugin data
  ∧ Dictionary.platform d = Dictionary.platform data
  ∧ Dictionary.displayName d = Dictionary.displayName data
  ∧ Dictionary.UUID d = Dictionary.UUID data
  ∧ Dictionary.category d = Dictionary.category data
  ∧ Dictionary.context d = Dictionary.context data
  ∧ (r.1.1 = Return tt → Dictionary.services d = Dictionary.services data)
  ∧ (∀ e, r.1.1 = Throw e → e = TypeError ∧ services r.1.2 = services this).
Proof.
  intros r d. subst r d.
  destruct (_configFromData_result data this σ)
    as (Hdn & Hid & Hcat & Hctx & _ & Hpl & Hpf & _ & Hservices & Hthrow & _ & _
        & Hcells).
  destruct (_dictionaryPresentation_fields (_configFromData data this σ).1.2
              (_configFromData data this σ).2)
    as (-> & -> & -> & -> & -> & -> & ->).
  do 6 (split; [done|]). split.
  - intros Hreturn. rewrite Hreturn in Hservices. rewrite Hservices.
    apply list_eq. intros i. rewrite list_lookup_fmap.
    destruct (Dictionary.services data !! i) as [sp|] eqn:Hsp.
    + rewrite (proj2 (lookup_seq _ _ _ _)) by
        (split; [reflexivity | by apply lookup_lt_Some in Hsp]).
      simpl. f_equal. apply servicePresentation_reconstructed. by apply Hcells.
    + apply lookup_ge_None in Hsp.
      rewrite (proj2 (lookup_ge_None _ _)) by (rewrite length_seq; lia). done.
  - intros e He. split; [by apply Hthrow|]. by rewrite He in Hservices.
Qed.

(** X16. [_configFromData] only creates. The reconstructed services are
    new objects at the next free addresses, one per entry and in order,
    and they are the service list of the model when the call returns;
    every object that existed before keeps its state, the objects of the
    previous service list included; [reachable] is false afterwards and
    an attached collaborator is left as it was. All of it but the new
    service list holds as well when the call throws. *)
Theorem _configFromData_only_creates (data : Dictionary.t)
    (this : PlatformAccessory.t) (σ : Store) :
  let r := _configFromData data this σ in
  let created := seq (next σ) (length (Dictionary.services data)) in
  services r.1.2 = match r.1.1 with Return _ => created | Throw _ => services this end
  ∧ next r.2 = next σ + length (Dictionary.services data)
  ∧ (∀ a, allocated σ a → cell r.2 a = cell σ a ∧ a ∉ created)
  ∧ Forall (allocated r.2) created
  ∧ reachable r.1.2 = false
  ∧ _associatedHAPAccessory r.1.2 = _associatedHAPAccessory this.
Proof.
  intros r created. subst r created.
  destruct (_configFromData_result data this σ)
    as (_ & _ & _ & _ & Hreach & _ & _ & Hhap & Hservices & _ & Hnext & Hframe & _).
  split; [done|]. split; [done|]. split; [|split; [|done]].
  - intros a Ha. unfold allocated in Ha. split; [by apply Hframe|].
    intros [Hge _]%elem_of_seq. lia.
  - apply list.Forall_forall. intros a [Hge Hlt]%elem_of_seq.
    unfold allocated. lia.
Qed.

(** ** A fresh model *)

(** X17. On a freshly constructed model the accessory-information
    service is found by its type: [getService] with the
    [Service.AccessoryInformation] function returns the model's service,
    and so does [getServiceByUUIDAndSubType] with that function and the
    subtype the service has. *)
Theorem constructor_then_lookups (isValid : string → bool)
    (dn u : option string) (cat : option Category) (σ σ' : Store)
    (m : PlatformAccessory.t) :
  constructor isValid dn u cat σ = Return (m, σ') →
  services m = [next σ]
  ∧ getService (OfFunction Service.AccessoryInformation) m σ' = Some (next σ)
  ∧ getServiceByUUIDAndSubType (OfFunction Service.AccessoryInformation)
      (Service.subtype (cell σ' (next σ))) m σ'
    = Some (next σ).
Proof.
  intros Hr.
  destruct (constructor_Return isValid dn u cat σ σ' m Hr)
    as (d & s & -> & -> & Hd & Hs & Hv).
  destruct (constructor_valid isValid d s cat σ Hd Hs Hv)
    as (m1 & σ1 & Hr1 & _ & _ & _ & Hservices & _ & _ & Hcell).
  rewrite Hr in Hr1. injection Hr1 as <- <-.
  unfold getService, getServiceByUUIDAndSubType. rewrite Hservices. simpl.
  rewrite Hcell. simpl. done.
Qed.

Lemma constructor_then_lookups_witness :
  ∃ m σ',
    constructor uuid_isValid (Some "Lamp")
      (Some "9a8b7c6d-0000-4000-8000-0026bb765291") None empty_store
    = Return (m, σ')
    ∧ getService (OfFunction Service.AccessoryInformation) m σ' = Some 0.
Proof.
  eexists _, _. split; [reflexivity|].
  destruct (constructor_then_lookups uuid_isValid (Some "Lamp")
              (Some "9a8b7c6d-0000-4000-8000-0026bb765291") None
              empty_store _ _ eq_refl) as (_ & Htype & _).
  exact Htype.
Defined.

(** ** The prerequisites script *)

Section PrerequisitesProperties.
Variable existsSync : string → bool.
Variable succeeds : string → bool.

Lemma install_executed (command : string) :
  executed (Prerequisites.install succeeds command).2 = [command].
Proof. unfold Prerequisites.install. by destruct (succeeds command). Qed.

(** X18. The script runs only a package manager it has found, and the
    first of dnf, yum and apt-get that exists: it executes at most one
    command, none when all three are missing, and the program the
    command names is a file it saw in /usr/bin, with no earlier
    candidate present. *)
Theorem prerequisites_runs_what_it_found :
  match executed (Prerequisites.prerequisites existsSync succeeds).2 with
  | [] =>
      existsSync "/usr/bin/dnf" = false
      ∧ existsSync "/usr/bin/yum" = false
      ∧ existsSync "/usr/bin/apt-get" = false
      ∧ Prerequisites.prerequisites existsSync succeeds
        = (Prerequisites.Returned, [])
  | [command] =>
      existsSync ("/usr/bin/" +:+ first_word command) = true
      ∧ (first_word command = "dnf"
         ∨ (first_word command = "yum" ∧ existsSync "/usr/bin/dnf" = false)
         ∨ (first_word command = "apt-get"
            ∧ existsSync "/usr/bin/dnf" = false
            ∧ existsSync "/usr/bin/yum" = false))
  | _ => False
  end.
Proof.
  unfold Prerequisites.prerequisites, Prerequisites.getPms.
  destruct (existsSync "/usr/bin/dnf") eqn:Hdnf.
  { rewrite bool_decide_eq_true_2 by done. rewrite install_executed.
    split; [exact Hdnf | by left]. }
  destruct (existsSync "/usr/bin/yum") eqn:Hyum.
  { rewrite bool_decide_eq_false_2 by done.
    rewrite bool_decide_eq_true_2 by done. rewrite install_executed.
    split; [exact Hyum | right; by left]. }
  destruct (existsSync "/usr/bin/apt-get") eqn:Hapt.
  { rewrite !bool_decide_eq_false_2 by done.
    rewrite bool_decide_eq_true_2 by done. rewrite install_executed.
    split; [exact Hapt | right; right; done]. }
  done.
Qed.

(** X19. The throbber brackets the command, and a failing command leaves
    it running: a run that executes a command starts the throbber just
    before it; the throbber is stopped, as the last thing, exactly when
    the command exits with status 0, and otherwise the run ends with the
    exception of [execSync] and without the stop. *)
Theorem prerequisites_throbber :
  let run := Prerequisites.prerequisites existsSync succeeds in
  run.2 = []
  ∨ ∃ command,
      executed run.2 = [command]
      ∧ run.2 = Prerequisites.ThrobberStart "Installing Prerequisites"
                :: Prerequisites.ExecSync command
                :: (if succeeds command
                    then [Prerequisites.ThrobberStopAndPersist] else [])
      ∧ run.1 = (if succeeds command then Prerequisites.Returned
                 else Prerequisites.CommandFailed command)
      ∧ (Prerequisites.ThrobberStopAndPersist ∈ run.2 ↔ succeeds command = true).
Proof.
  assert (Hinstall : ∀ command,
            ∃ c, executed (Prerequisites.install succeeds command).2 = [c]
              ∧ (Prerequisites.install succeeds command).2
                = Prerequisites.ThrobberStart "Installing Prerequisites"
                  :: Prerequisites.ExecSync c
                  :: (if succeeds c
                      then [Prerequisites.ThrobberStopAndPersist] else [])
              ∧ (Prerequisites.install succeeds command).1
                = (if succeeds c then Prerequisites.Returned
                   else Prerequisites.CommandFailed c)
              ∧ (Prerequisites.ThrobberStopAndPersist
                   ∈ (Prerequisites.install succeeds command).2
                 ↔ succeeds c = true)).
  { intros command. exists command. unfold Prerequisites.install.
    destruct (succeeds command) eqn:Hs; simpl; repeat split; try done.
    - intros _. do 2 right. by left.
    - intros Hin. repeat (apply elem_of_cons in Hin as [Hin|Hin]; [done|]).
      by apply elem_of_nil in Hin. }
  intros run. subst run.
  unfold Prerequisites.prerequisites, Prerequisites.getPms.
  destruct (existsSync "/usr/bin/dnf").
  { right. rewrite bool_decide_eq_true_2 by done. apply Hinstall. }
  destruct (existsSync "/usr/bin/yum").
  { right. rewrite bool_decide_eq_false_2 by done.
    rewrite bool_decide_eq_true_2 by done. apply Hinstall. }
  destruct (existsSync "/usr/bin/apt-get").
  { right. rewrite !bool_decide_eq_false_2 by done.
    rewrite bool_decide_eq_true_2 by done. apply Hinstall. }
  by left.
Qed.
End PrerequisitesProperties.
